(** * go-todolist-example: the TodoHandler of main.go

    A shallow embedding of the in-memory to-do service: the item store
    (a Go map paired with an id counter and a sync.RWMutex) and the five
    gin handlers registered in [main].  Handlers are functions from the
    handler state to an outcome; a handler that parks on the mutex forever
    is an explicit outcome, so the lock discipline is part of the model. *)

From Stdlib Require Import ZArith String Ascii List Sorted Permutation Lia.
From stdpp Require Import gmap strings list sorting.

Local Open Scope Z_scope.

(** ** Go's [int] (64 bits on the supported platforms) *)

Module GoInt.

Definition intSize : Z := 64.
Definition MinInt : Z := - 2 ^ (intSize - 1).
Definition MaxInt : Z := 2 ^ (intSize - 1) - 1.

(** Signed two's-complement wrap-around: Go defines integer overflow of
    [+] and [++] as wrapping. *)
Definition wrap (z : Z) : Z :=
  (z + 2 ^ (intSize - 1)) `mod` 2 ^ intSize - 2 ^ (intSize - 1).

Definition in_range (z : Z) : bool := (MinInt <=? z) && (z <=? MaxInt).

(** [x++] on an [int]. *)
Definition incr (z : Z) : Z := wrap (z + 1).

End GoInt.

(** ** strconv.Atoi

    Library function, modelled from its documentation: an optional sign
    followed by one or more decimal digits; any other character, an empty
    digit string, or a value outside the range of [int] is an error. *)

Module strconv.

Definition digit_of (ch : ascii) : option Z :=
  let n := Z.of_N (N_of_ascii ch) in
  if (48 <=? n) && (n <=? 57) then Some (n - 48) else None.

Fixpoint digits (s : string) (acc : Z) : option Z :=
  match s with
  | EmptyString => Some acc
  | String ch rest =>
      match digit_of ch with
      | Some d => digits rest (10 * acc + d)
      | None => None
      end
  end.

Definition unsigned (s : string) : option Z :=
  match s with
  | EmptyString => None
  | _ => digits s 0
  end.

Definition Atoi (s : string) : option Z :=
  match s with
  | EmptyString => None
  | String ch rest =>
      let v :=
        if Ascii.eqb ch "-"%char then Z.opp <$> unsigned rest
        else if Ascii.eqb ch "+"%char then unsigned rest
        else unsigned s in
      match v with
      | Some n => if GoInt.in_range n then Some n else None
      | None => None
      end
  end.

End strconv.

(** ** net/http status codes used by the handlers *)

Module http.
Definition StatusOK : Z := 200.
Definition StatusBadRequest : Z := 400.
Definition StatusNotFound : Z := 404.
End http.

(** ** Data model *)

Record TodoItem := mkTodoItem {
  Id : Z;
  Name : string;
  IsComplete : bool
}.

Abbreviation TodoItemCollection := (list TodoItem).

Record PostTodoItem := mkPostTodoItem {
  Post_Name : string
}.

Record PutTodoItem := mkPutTodoItem {
  Put_Name : string;
  Put_IsComplete : bool
}.

(** Field assignments [item.Name = v] and [item.IsComplete = v] on a local
    struct value. *)
Definition set_Name (item : TodoItem) (v : string) : TodoItem :=
  {| Id := Id item; Name := v; IsComplete := IsComplete item |}.

Definition set_IsComplete (item : TodoItem) (v : bool) : TodoItem :=
  {| Id := Id item; Name := Name item; IsComplete := v |}.

(** *** sort.Interface for TodoItemCollection

    [Len], [Swap] and [Less] act on positions, as in the source.  An index
    out of range panics in Go; the sort only calls them in range, and here
    [Less] is then [false] and [Swap] leaves the slice alone. *)

Definition Len (t : TodoItemCollection) : nat := length t.

Definition Swap (t : TodoItemCollection) (i j : nat) : TodoItemCollection :=
  match t !! i, t !! j with
  | Some a, Some b => <[j := a]> (<[i := b]> t)
  | _, _ => t
  end.

Definition Less (t : TodoItemCollection) (i j : nat) : bool :=
  match t !! i, t !! j with
  | Some a, Some b => Id a <? Id b
  | _, _ => false
  end.

(** ** sync.RWMutex

    [readers] counts the read locks held, [writer] tells whether the write
    lock is held. *)

Record RWMutex := mkRWMutex {
  readers : nat;
  writer : bool
}.

Definition unlocked : RWMutex := {| readers := 0; writer := false |}.

(** ** The handler state *)

Record TodoHandler := mkTodoHandler {
  items : gmap Z TodoItem;
  lastID : Z;
  mu : RWMutex
}.

Definition NewTodoHandler (lastID : Z) : TodoHandler :=
  {| items := ∅; lastID := lastID; mu := unlocked |}.

Definition with_items (th : TodoHandler) (m : gmap Z TodoItem) : TodoHandler :=
  {| items := m; lastID := lastID th; mu := mu th |}.

Definition with_lastID (th : TodoHandler) (n : Z) : TodoHandler :=
  {| items := items th; lastID := n; mu := mu th |}.

Definition with_mu (th : TodoHandler) (m : RWMutex) : TodoHandler :=
  {| items := items th; lastID := lastID th; mu := m |}.

(** ** Handler actions

    A handler either returns, or blocks forever in [Lock]/[RLock] (no other
    goroutine is there to release the mutex), or dies in the runtime's
    fatal error for unlocking a mutex that is not locked. *)

Inductive outcome (A : Type) : Type :=
| Returned (a : A) (th : TodoHandler)
| Blocked (th : TodoHandler)
| Crashed (th : TodoHandler).

Arguments Returned {A} a th.
Arguments Blocked {A} th.
Arguments Crashed {A} th.

Definition action (A : Type) : Type := TodoHandler → outcome A.

Definition ret {A} (a : A) : action A := λ th, Returned a th.

Definition bind {A B} (m : action A) (k : A → action B) : action B :=
  λ th,
    match m th with
    | Returned a th' => k a th'
    | Blocked th' => Blocked th'
    | Crashed th' => Crashed th'
    end.

#[global] Instance action_ret : MRet action := @ret.
#[global] Instance action_bind : MBind action := λ A B k m, bind m k.

(** *** The mutex operations *)

Definition RLock : action unit := λ th,
  if writer (mu th) then Blocked th
  else Returned tt (with_mu th {| readers := S (readers (mu th)); writer := false |}).

Definition RUnlock : action unit := λ th,
  match readers (mu th) with
  | O => Crashed th
  | S n => Returned tt (with_mu th {| readers := n; writer := writer (mu th) |})
  end.

Definition Lock : action unit := λ th,
  if writer (mu th) then Blocked th
  else match readers (mu th) with
       | O => Returned tt (with_mu th {| readers := 0; writer := true |})
       | S _ => Blocked th
       end.

Definition Unlock : action unit := λ th,
  if writer (mu th)
  then Returned tt (with_mu th {| readers := readers (mu th); writer := false |})
  else Crashed th.

(** [defer f] followed by [body]: [f] runs when the function returns,
    whichever return statement is taken. *)
Definition defer {A} (f : action unit) (body : action A) : action A :=
  r ← body; f;; mret r.

(** *** Field access *)

Definition get_items : action (gmap Z TodoItem) := λ th, Returned (items th) th.
Definition put_items (m : gmap Z TodoItem) : action unit :=
  λ th, Returned tt (with_items th m).
Definition get_lastID : action Z := λ th, Returned (lastID th) th.
Definition put_lastID (n : Z) : action unit :=
  λ th, Returned tt (with_lastID th n).

(** ** gin.Context

    The request side is the path parameters and what [ShouldBindJSON]
    yields for each of the two body shapes ([None] is its error).  The
    response side is the single write a handler makes. *)

Record Context := mkContext {
  Params : list (string * string);
  BindPost : option PostTodoItem;
  BindPut : option PutTodoItem
}.

Fixpoint lookup_param (ps : list (string * string)) (key : string) : string :=
  match ps with
  | [] => EmptyString
  | (k, v) :: rest => if String.eqb k key then v else lookup_param rest key
  end.

(** [c.Param(key)]: the value of the path parameter, or the empty string. *)
Definition Param (c : Context) (key : string) : string :=
  lookup_param (Params c) key.

Inductive response : Type :=
| NoBody                                                    (* nothing written *)
| String_ (code : Z) (format : string) (values : list Z)    (* c.String *)
| JSON_items (code : Z) (obj : TodoItemCollection)          (* c.JSON, a slice *)
| JSON_item (code : Z) (obj : TodoItem).                    (* c.JSON, one item *)

Definition dquote : string := String "034"%char EmptyString.

Definition not_found_format : string :=
  "Not found: Item with id "%string +:+ dquote +:+ "%v"%string +:+ dquote.

Definition NotFound (id : Z) : response :=
  String_ http.StatusNotFound not_found_format [id].

(** ** What the Go runtime and library contribute to [GetItems] *)

(** [for _, item := range m]: the iteration order of a map is not specified
    and may differ from one loop to the next.  A [MapRange] is one such
    order: it lists the entries of the map, each once. *)
Record MapRange := mkMapRange {
  range_of :> gmap Z TodoItem → list (Z * TodoItem);
  range_of_perm : ∀ m, range_of m ≡ₚ map_to_list m
}.

(** [sort.IsSorted]: no element is [Less] than its predecessor. *)
Definition IsSorted (t : TodoItemCollection) : bool :=
  forallb (λ i, negb (Less t (S i) i)) (seq 0 (Len t - 1)).

(** [sort.Sort], by its contract: it rearranges the slice (it only ever
    calls [Swap]) so that [sort.IsSorted] holds; it is not stable. *)
Class Sorter := mkSorter {
  sort_Sort : TodoItemCollection → TodoItemCollection;
  sort_Sort_perm : ∀ t, sort_Sort t ≡ₚ t;
  sort_Sort_sorted : ∀ t, IsSorted (sort_Sort t) = true
}.

(** [make(TodoItemCollection, n)]: [n] zero-valued items. *)
Definition make (n : nat) : TodoItemCollection :=
  replicate n {| Id := 0; Name := EmptyString; IsComplete := false |}.

(** The copy loop of [GetItems]: [items[i] = item; i++] for each entry. *)
Definition copy_loop (entries : list (Z * TodoItem)) (t : TodoItemCollection)
  : TodoItemCollection * nat :=
  foldl (λ '(t, i) '(_, item), (<[i := item]> t, S i)) (t, 0%nat) entries.

(** ** The handlers *)

Section handlers.
Context `{Sorter}.

(** [GetItems] copies the map's values into a slice and sorts it.  (An
    earlier revision of the handler, kept next to this one in main.go,
    passes the map itself to [c.JSON]; the sorted one is modelled.) *)
Definition GetItems (ρ : MapRange) (c : Context) : action response :=
  RLock;;
  m ← get_items;
  let items := make (size m) in
  let '(items, _) := copy_loop (ρ m) items in
  let items := sort_Sort items in
  let written := JSON_items http.StatusOK items in
  RUnlock;;
  mret written.

Definition GetItemByID (c : Context) : action response :=
  match strconv.Atoi (Param c "id"%string) with
  | None =>
      mret (String_ http.StatusBadRequest
              "Bad request: Id in path is not a valid id"%string [])
  | Some id =>
      RLock;;
      m ← get_items;
      let written :=
        match m !! id with
        | None => NotFound id
        | Some item => JSON_item http.StatusOK item
        end in
      RUnlock;;
      mret written
  end.

Definition PostItem (c : Context) : action response :=
  match BindPost c with
  | None => mret (String_ http.StatusBadRequest "Bad request"%string [])
  | Some item =>
      Lock;;
      n ← get_lastID;
      put_lastID (GoInt.incr n);;
      n ← get_lastID;
      m ← get_items;
      put_items (<[n := {| Id := n; Name := Post_Name item;
                           IsComplete := false |}]> m);;
      Unlock;;
      mret NoBody
  end.

(** The last statement of [PutItem] is a tuple assignment.  Go evaluates
    the three right-hand sides (and the index operands on the left)
    first, and only then assigns from left to right: the [item] on the
    right is the value read from the map, taken before [item.Name] and
    [item.IsComplete] are assigned. *)
Definition PutItem (c : Context) : action response :=
  match BindPut c with
  | None => mret (String_ http.StatusBadRequest "Bad request"%string [])
  | Some putItem =>
      match strconv.Atoi (Param c "id"%string) with
      | None =>
          mret (String_ http.StatusBadRequest
                  "Bad request: Id in url is not a valid id"%string [])
      | Some id =>
          Lock;;
          defer Unlock (
            m ← get_items;
            match m !! id with
            | None => mret (NotFound id)
            | Some item =>
                let '(v1, v2, v3) :=
                  (Put_Name putItem, Put_IsComplete putItem, item) in
                let item := set_Name item v1 in
                let item := set_IsComplete item v2 in
                put_items (<[id := v3]> m);;
                mret NoBody
            end)
      end
  end.

Definition DeleteItem (c : Context) : action response :=
  match strconv.Atoi (Param c "id"%string) with
  | None =>
      mret (String_ http.StatusBadRequest
              "Bad request: Id in url is not a valid id"%string [])
  | Some id =>
      Lock;;
      m ← get_items;
      match m !! id with
      | None => mret (NotFound id)
      | Some _ =>
          put_items (delete id m);;
          Unlock;;
          mret NoBody
      end
  end.

(** ** The routes registered in [main], and serving requests in turn *)

Inductive route : Type :=
| GET_TodoItems
| GET_TodoItems_id
| POST_TodoItems
| PUT_TodoItems_id
| DELETE_TodoItems_id.

Record request := mkRequest {
  req_route : route;
  req_context : Context;
  req_range : MapRange
}.

Definition serve (r : request) : action response :=
  match req_route r with
  | GET_TodoItems => GetItems (req_range r) (req_context r)
  | GET_TodoItems_id => GetItemByID (req_context r)
  | POST_TodoItems => PostItem (req_context r)
  | PUT_TodoItems_id => PutItem (req_context r)
  | DELETE_TodoItems_id => DeleteItem (req_context r)
  end.

(** The handler state a request leaves behind.  A blocked handler stays
    parked and the next request finds the state it blocked on; a fatal
    error ends the process. *)
Definition state_after {A} (o : outcome A) : TodoHandler :=
  match o with
  | Returned _ th | Blocked th | Crashed th => th
  end.

Fixpoint run (reqs : list request) (th : TodoHandler)
  : list (request * outcome response) :=
  match reqs with
  | [] => []
  | r :: rest =>
      let o := serve r th in
      (r, o) :: match o with
                | Crashed _ => []
                | _ => run rest (state_after o)
                end
  end.

Fixpoint final (reqs : list request) (th : TodoHandler) : TodoHandler :=
  match reqs with
  | [] => th
  | r :: rest =>
      match serve r th with
      | Crashed th' => th'
      | o => final rest (state_after o)
      end
  end.

(** The id a served request was assigned: that of a [PostItem] that
    went through, read from the counter it left. *)
Definition assigned_id (e : request * outcome response) : option Z :=
  match e with
  | (r, Returned NoBody th) =>
      match req_route r with
      | POST_TodoItems => Some (lastID th)
      | _ => None
      end
  | _ => None
  end.

Definition created_ids (reqs : list request) (th : TodoHandler) : list Z :=
  omap assigned_id (run reqs th).

End handlers.

(** ** Reference runtime: an insertion sort and two iteration orders

    For slices of at most twelve elements [sort.Sort] runs the insertion
    sort below, through [Less] and [Swap] alone. *)

(** [for j := i; j > 0 && data.Less(j, j-1); j-- { data.Swap(j, j-1) }] *)
Fixpoint sift (t : TodoItemCollection) (j : nat) : TodoItemCollection :=
  match j with
  | O => t
  | S j' => if Less t j j' then sift (Swap t j j') j' else t
  end.

(** [for i := 1; i < n; i++ { ... }] *)
Definition insertionSort (t : TodoItemCollection) : TodoItemCollection :=
  foldl sift t (seq 1 (Len t - 1)).

Definition ascending (m : gmap Z TodoItem) : list (Z * TodoItem) :=
  map_to_list m.

Definition descending (m : gmap Z TodoItem) : list (Z * TodoItem) :=
  reverse (map_to_list m).

Definition ascending_range : MapRange :=
  {| range_of := ascending; range_of_perm := λ m, reflexivity _ |}.

(** ** The store invariant of the data model: an item sits under its id *)

Definition store_inv (th : TodoHandler) : Prop :=
  map_Forall (λ k item, Id item = k) (items th).

#[global] Instance store_inv_dec (th : TodoHandler) : Decision (store_inv th).
Proof. unfold store_inv. apply _. Defined.

(** Ascending ids, as a relation on items. *)
Definition id_le (a b : TodoItem) : Prop := Id a <= Id b.

(** ** Reading outcomes *)

(** The HTTP status a response carries; gin answers 200 when the handler
    wrote nothing. *)
Definition status_of (r : response) : Z :=
  match r with
  | NoBody => http.StatusOK
  | String_ code _ _ | JSON_items code _ | JSON_item code _ => code
  end.

Definition signals_NotFound (o : outcome response) : bool :=
  match o with
  | Returned r _ => status_of r =? http.StatusNotFound
  | _ => false
  end.

(** The store proper: the map and the id counter. *)
Definition same_store (th th' : TodoHandler) : Prop :=
  items th' = items th ∧ lastID th' = lastID th.

(** A request context with path parameter [id] and the given bodies. *)
Definition context_of (id : string) (post : option PostTodoItem)
    (put : option PutTodoItem) : Context :=
  {| Params := [("id"%string, id)]; BindPost := post; BindPut := put |}.

(** Requests to the five routes, for running scenarios. *)
Definition list_items (ρ : MapRange) : request :=
  mkRequest GET_TodoItems (context_of EmptyString None None) ρ.
Definition get_item (id : string) : request :=
  mkRequest GET_TodoItems_id (context_of id None None) ascending_range.
Definition post_item (name : string) : request :=
  mkRequest POST_TodoItems
    (context_of EmptyString (Some {| Post_Name := name |}) None)
    ascending_range.
Definition put_item (id name : string) (done : bool) : request :=
  mkRequest PUT_TodoItems_id
    (context_of id None (Some {| Put_Name := name; Put_IsComplete := done |}))
    ascending_range.
Definition delete_item (id : string) : request :=
  mkRequest DELETE_TodoItems_id (context_of id None None) ascending_range.

(** The state a [PostItem] with name [name] leaves when it gets the lock. *)
Definition posted (name : string) (th : TodoHandler) : TodoHandler :=
  {| items := <[GoInt.incr (lastID th) :=
                 {| Id := GoInt.incr (lastID th); Name := name;
                    IsComplete := false |}]> (items th);
     lastID := GoInt.incr (lastID th);
     mu := unlocked |}.

(** What the clients of a run get back: the response written, or nothing
    from a handler that never returned. *)
Definition response_of (o : outcome response) : option response :=
  match o with
  | Returned r _ => Some r
  | _ => None
  end.

(** The store after "Buy milk" and "Walk dog" were posted. *)
Definition two_items : TodoHandler :=
  posted "Walk dog"%string (posted "Buy milk"%string (NewTodoHandler 0)).

(** A three-item slice, for trying the interface. *)
Definition three_items : TodoItemCollection :=
  [{| Id := 3; Name := "c"%string; IsComplete := false |};
   {| Id := 1; Name := "a"%string; IsComplete := true |};
   {| Id := 2; Name := "b"%string; IsComplete := false |}].

(** The two-item store with the write lock left held, as a [DeleteItem]
    that missed leaves it. *)
Definition stuck_items : TodoHandler :=
  with_mu two_items {| readers := 0; writer := true |}.

(** Requests and contexts for trying the handlers on the two-item store. *)
Definition post_read_book : Context :=
  context_of EmptyString (Some {| Post_Name := "Read book"%string |}) None.
Definition no_params : Context := context_of EmptyString None None.
Definition id_param (id : string) : Context := context_of id None None.
Definition posts_and_a_delete : list request :=
  [post_item "Buy milk"%string; post_item "Walk dog"%string;
   delete_item "1"%string; post_item "Read book"%string].

(** No item of the map has its flag up. *)
Definition never_complete (th : TodoHandler) : Prop :=
  map_Forall (λ _ item, IsComplete item = false) (items th).

(** The two effects a served request can have on the store. *)
Definition post_effect (th th' : TodoHandler) : Prop :=
  lastID th' = GoInt.incr (lastID th)
  ∧ ∃ name, items th'
            = <[lastID th' := {| Id := lastID th'; Name := name;
                                 IsComplete := false |}]> (items th).

Definition frame_effect (th th' : TodoHandler) : Prop :=
  lastID th' = lastID th
  ∧ (items th' = items th ∨ ∃ id, items th' = delete id (items th)).

(** * Properties *)

(** ** Sorting *)

Section sorting_facts.

#[global] Instance id_le_trans : Transitive id_le.
Proof. unfold id_le. intros a b c ? ?. lia. Qed.

Lemma forallb_shift (f : nat → bool) l :
  forallb f (List.map S l) = forallb (λ i, f (S i)) l.
Proof. induction l as [|i l IH]; [done | cbn; by rewrite IH]. Qed.

Lemma IsSorted_cons a b t :
  IsSorted (a :: b :: t) = negb (Id b <? Id a) && IsSorted (b :: t).
Proof.
  unfold IsSorted, Len. cbn [length Nat.sub].
  rewrite Nat.sub_0_r. cbn [seq forallb]. f_equal.
  rewrite <- seq_shift, forallb_shift. reflexivity.
Qed.

Lemma IsSorted_Sorted t : IsSorted t = true ↔ Sorted id_le t.
Proof.
  induction t as [|a [|b t] IH].
  - split; [constructor | reflexivity].
  - split; [repeat constructor | reflexivity].
  - rewrite IsSorted_cons, andb_true_iff, IH, negb_true_iff, Z.ltb_ge.
    split.
    + intros [? ?]. constructor; [done | by constructor].
    + intros Hs. apply Sorted_inv in Hs as [? Hr]. by inversion Hr.
Qed.

Lemma Swap_cons a t i j : Swap (a :: t) (S i) (S j) = a :: Swap t i j.
Proof. unfold Swap. cbn. by destruct (t !! i), (t !! j). Qed.

Lemma Swap_adjacent l1 x y l2 :
  Swap (l1 ++ x :: y :: l2) (S (length l1)) (length l1) = l1 ++ y :: x :: l2.
Proof.
  induction l1 as [|a l1 IH]; [reflexivity |].
  cbn [app length]. by rewrite Swap_cons, IH.
Qed.

Lemma Less_adjacent l1 x y l2 :
  Less (l1 ++ x :: y :: l2) (S (length l1)) (length l1) = (Id y <? Id x).
Proof. induction l1 as [|a l1 IH]; [reflexivity | by rewrite <- IH]. Qed.

Lemma sift_spec l1 x : ∀ l2,
  StronglySorted id_le l1 →
  ∃ l1', sift (l1 ++ x :: l2) (length l1) = l1' ++ l2
         ∧ l1' ≡ₚ l1 ++ [x] ∧ StronglySorted id_le l1'.
Proof.
  induction l1 as [|y l1 IH] using rev_ind; intros l2 Hs.
  - exists [x]. repeat split; [done | repeat constructor].
  - rewrite length_app, Nat.add_1_r, <- app_assoc. cbn [app sift].
    apply StronglySorted_app in Hs as (Hle & Hs1 & _).
    rewrite Less_adjacent. destruct (Z.ltb_spec (Id x) (Id y)) as [Hlt|Hge].
    + rewrite Swap_adjacent.
      destruct (IH (y :: l2) Hs1) as (l1' & -> & Hp & Hs').
      exists (l1' ++ [y]). split; [by rewrite <- app_assoc |]. split.
      * rewrite Hp, <- !app_assoc. cbn. apply Permutation_app_head, perm_swap.
      * apply StronglySorted_app. split_and!; [| done | repeat constructor].
        intros a b Ha Hb. apply list_elem_of_singleton in Hb as ->.
        rewrite Hp in Ha. apply elem_of_app in Ha as [Ha|Ha].
        -- apply Hle; [done | by apply list_elem_of_singleton].
        -- apply list_elem_of_singleton in Ha as ->. unfold id_le. lia.
    + exists ((l1 ++ [y]) ++ [x]). split; [by rewrite <- !app_assoc |].
      split; [done |].
      apply StronglySorted_app. split_and!; [| | repeat constructor].
      * intros a b Ha Hb. apply list_elem_of_singleton in Hb as ->.
        apply elem_of_app in Ha as [Ha|Ha].
        -- transitivity y; [| done].
           apply Hle; [done | by apply list_elem_of_singleton].
        -- apply list_elem_of_singleton in Ha as ->. done.
      * apply StronglySorted_app. split_and!; [done.. | repeat constructor].
Qed.

Lemma insertion_loop rest : ∀ p,
  StronglySorted id_le p →
  ∃ p', foldl sift (p ++ rest) (seq (length p) (length rest)) = p'
        ∧ p' ≡ₚ p ++ rest ∧ StronglySorted id_le p'.
Proof.
  induction rest as [|x rest IH]; intros p Hs.
  - exists p. by rewrite app_nil_r.
  - cbn [length seq foldl].
    destruct (sift_spec p x rest Hs) as (p1 & -> & Hp & Hs1).
    destruct (IH p1 Hs1) as (p' & Hrun & Hp' & Hs').
    assert (length p1 = S (length p)) as Hlen.
    { rewrite Hp, length_app. cbn. lia. }
    rewrite Hlen in Hrun. exists p'. split; [done |]. split; [| done].
    rewrite Hp', Hp, <- app_assoc. done.
Qed.

Lemma insertionSort_spec t :
  insertionSort t ≡ₚ t ∧ StronglySorted id_le (insertionSort t).
Proof.
  destruct t as [|x t]; [split; [done | constructor] |].
  unfold insertionSort, Len. cbn [length Nat.sub]. rewrite Nat.sub_0_r.
  destruct (insertion_loop t [x]) as (p' & Hrun & Hp & Hs);
    [repeat constructor |].
  cbn in Hrun. rewrite Hrun. done.
Qed.

End sorting_facts.

Lemma insertionSort_IsSorted t : IsSorted (insertionSort t) = true.
Proof.
  apply IsSorted_Sorted, StronglySorted_Sorted, insertionSort_spec.
Qed.

Lemma insertionSort_perm t : insertionSort t ≡ₚ t.
Proof. apply insertionSort_spec. Qed.

Lemma descending_perm m : descending m ≡ₚ map_to_list m.
Proof. apply reverse_Permutation. Qed.

(** The reference runtime, packaged. *)
Definition insertion_sorter : Sorter :=
  {| sort_Sort := insertionSort;
     sort_Sort_perm := insertionSort_perm;
     sort_Sort_sorted := insertionSort_IsSorted |}.

Definition descending_range : MapRange :=
  {| range_of := descending; range_of_perm := descending_perm |}.

(** ** The copy loop of [GetItems] *)

Lemma copy_loop_from (entries : list (Z * TodoItem)) :
  ∀ (filled pad : list TodoItem),
    length pad = length entries →
    foldl (λ '(t, i) '(_, item), (<[i := item]> t, S i))
          (filled ++ pad, length filled) entries
    = (filled ++ entries.*2, (length filled + length entries)%nat).
Proof.
  induction entries as [|[k item] entries IH]; intros filled pad Hlen.
  - destruct pad; [| done]. cbn. by rewrite Nat.add_0_r.
  - destruct pad as [|z pad]; [done |]. cbn [foldl].
    rewrite insert_app_r_alt, Nat.sub_diag by lia. cbn [insert list_insert].
    replace (filled ++ item :: pad) with ((filled ++ [item]) ++ pad)
      by (by rewrite <- app_assoc).
    replace (S (length filled)) with (length (filled ++ [item]))
      by (rewrite length_app; cbn; lia).
    rewrite IH by (cbn in Hlen; lia).
    rewrite <- app_assoc, length_app. cbn. f_equal. lia.
Qed.

Lemma copy_loop_values (ρ : MapRange) (m : gmap Z TodoItem) :
  copy_loop (ρ m) (make (size m)) = ((ρ m).*2, size m).
Proof.
  unfold copy_loop, make.
  assert (length (ρ m) = size m) as Hlen.
  { rewrite (range_of_perm ρ m). apply length_map_to_list. }
  pose proof (copy_loop_from (ρ m) []
                (replicate (size m)
                   {| Id := 0; Name := EmptyString; IsComplete := false |})) as E.
  cbn [app length] in E. rewrite E, Hlen; [done |].
  by rewrite length_replicate.
Qed.

(** ** The handlers, one by one *)

Ltac unfold_action :=
  unfold defer in *;
  unfold mbind, mret, action_bind, action_ret, bind, ret,
    get_items, put_items, get_lastID, put_lastID,
    Lock, Unlock, RLock, RUnlock,
    with_items, with_lastID, with_mu in *.

Section handler_facts.
Context `{Sorter}.

Implicit Types (th : TodoHandler) (c : Context) (ρ : MapRange) (id : Z).

(** [GetItems] with the mutex not write-locked: the sorted copy of the
    map's values, the state as it was. *)
Lemma GetItems_eq ρ c th :
  writer (mu th) = false →
  GetItems ρ c th
  = Returned (JSON_items http.StatusOK (sort_Sort ((ρ (items th)).*2))) th.
Proof.
  intros Hw. unfold GetItems. unfold_action. rewrite Hw. cbn.
  rewrite copy_loop_values.
  destruct th as [m n [r w]]. cbn in *. by subst.
Qed.

Lemma values_elem_of (m : gmap Z TodoItem) (item : TodoItem) :
  item ∈ (map_to_list m).*2 ↔ ∃ k, m !! k = Some item.
Proof.
  rewrite list_elem_of_fmap. split.
  - intros ([k v] & -> & Hin). exists k. by apply elem_of_map_to_list.
  - intros [k Hk]. exists (k, item). split; [done |].
    by apply elem_of_map_to_list.
Qed.

Lemma sort_Sort_Sorted (t : TodoItemCollection) : Sorted id_le (sort_Sort t).
Proof. apply IsSorted_Sorted, sort_Sort_sorted. Qed.

Lemma GetItems_perm ρ (m : gmap Z TodoItem) :
  sort_Sort ((ρ m).*2) ≡ₚ (map_to_list m).*2.
Proof. by rewrite sort_Sort_perm, (range_of_perm ρ m). Qed.

(** C2: for every store state (with the mutex not write-locked, so that the
    read lock is granted), [GetItems] answers 200 with a slice that holds
    exactly the items of the map (the same items, each as often as the map
    has it) in ascending order of [Id], whatever order the map is ranged
    over, and it leaves the handler state as it found it. *)
Theorem GetItems_lists_store_sorted ρ c th :
  writer (mu th) = false →
  ∃ out,
    GetItems ρ c th = Returned (JSON_items http.StatusOK out) th
    ∧ out ≡ₚ (map_to_list (items th)).*2
    ∧ (∀ item, item ∈ out ↔ ∃ k, items th !! k = Some item)
    ∧ length out = size (items th)
    ∧ StronglySorted id_le out.
Proof.
  intros Hw. exists (sort_Sort ((ρ (items th)).*2)).
  pose proof (GetItems_perm ρ (items th)) as Hp.
  split_and!.
  - by apply GetItems_eq.
  - done.
  - intros item. by rewrite Hp, values_elem_of.
  - by rewrite Hp, length_fmap, length_map_to_list.
  - apply Sorted_StronglySorted; [apply id_le_trans | apply sort_Sort_Sorted].
Qed.

(** Under the store invariant two items of the map with the same [Id] are
    the same item. *)
Lemma store_inv_ids_distinct th a b :
  store_inv th →
  a ∈ (map_to_list (items th)).*2 → b ∈ (map_to_list (items th)).*2 →
  Id a = Id b → a = b.
Proof.
  intros Hinv [ka Ha]%values_elem_of [kb Hb]%values_elem_of Hid.
  pose proof (Hinv _ _ Ha). pose proof (Hinv _ _ Hb).
  assert (ka = kb) by congruence. subst. congruence.
Qed.

(** C8: in a store state that satisfies the store invariant (every
    reachable one does) and whose mutex is not write-locked, two calls of
    [GetItems] in a row, the second on the state the first left, answer
    with the same slice: same items in the same order, even when the two
    calls range over the map in different orders. *)
Theorem GetItems_twice_same ρ1 ρ2 c1 c2 th :
  store_inv th →
  writer (mu th) = false →
  ∃ out th1 th2,
    GetItems ρ1 c1 th = Returned (JSON_items http.StatusOK out) th1
    ∧ GetItems ρ2 c2 th1 = Returned (JSON_items http.StatusOK out) th2.
Proof.
  intros Hinv Hw.
  exists (sort_Sort ((ρ1 (items th)).*2)), th, th.
  split; [by apply GetItems_eq |].
  rewrite GetItems_eq by done. do 2 f_equal.
  apply (Sorted_unique_strong id_le); try apply sort_Sort_Sorted.
  - intros a b Ha Hb Hab Hba.
    rewrite GetItems_perm in Ha. rewrite GetItems_perm in Hb.
    apply (store_inv_ids_distinct th); [done.. |]. unfold id_le in *. lia.
  - by rewrite !GetItems_perm.
Qed.

(** *** GetItemByID *)

Lemma GetItemByID_eq c th id :
  strconv.Atoi (Param c "id"%string) = Some id →
  writer (mu th) = false →
  GetItemByID c th
  = Returned (match items th !! id with
              | None => NotFound id
              | Some item => JSON_item http.StatusOK item
              end) th.
Proof.
  intros Hid Hw. unfold GetItemByID. rewrite Hid. unfold_action.
  rewrite Hw. cbn. destruct th as [m n [r w]]. cbn in *. by subst.
Qed.

(** *** PostItem *)

Lemma PostItem_eq c th item :
  BindPost c = Some item →
  mu th = unlocked →
  PostItem c th
  = Returned NoBody
      {| items := <[GoInt.incr (lastID th) :=
                     {| Id := GoInt.incr (lastID th); Name := Post_Name item;
                        IsComplete := false |}]> (items th);
         lastID := GoInt.incr (lastID th);
         mu := unlocked |}.
Proof.
  intros Hb Hmu. unfold PostItem. rewrite Hb. unfold_action.
  rewrite Hmu. reflexivity.
Qed.

(** *** PutItem: the map entry is overwritten with the item read from it *)

Lemma PutItem_eq c th putItem id :
  BindPut c = Some putItem →
  strconv.Atoi (Param c "id"%string) = Some id →
  mu th = unlocked →
  PutItem c th
  = Returned (match items th !! id with
              | None => NotFound id
              | Some _ => NoBody
              end) th.
Proof.
  intros Hb Hid Hmu. unfold PutItem. rewrite Hb, Hid. unfold_action.
  rewrite Hmu. cbn. destruct th as [m n μ]. cbn in *. subst.
  destruct (m !! id) as [item|] eqn:Hm; cbn; [| done].
  by rewrite insert_id.
Qed.

(** *** DeleteItem *)

Lemma DeleteItem_eq c th id :
  strconv.Atoi (Param c "id"%string) = Some id →
  mu th = unlocked →
  DeleteItem c th
  = match items th !! id with
    | None =>
        Returned (NotFound id)
          {| items := items th; lastID := lastID th;
             mu := {| readers := 0; writer := true |} |}
    | Some _ =>
        Returned NoBody
          {| items := delete id (items th); lastID := lastID th;
             mu := unlocked |}
    end.
Proof.
  intros Hid Hmu. unfold DeleteItem. rewrite Hid. unfold_action.
  rewrite Hmu. cbn. by destruct (items th !! id).
Qed.

End handler_facts.

(** ** One request, from any state

    What serving a request can do to the handler state, whatever the state
    of the mutex: it never dies in the runtime; a blocked handler has
    changed nothing; a [PostItem] that went through stepped the counter
    and stored an item under the new counter value; anything else left the
    counter alone and the map as it was, or with one key removed. *)

Section serving.
Context `{Sorter}.

Lemma serve_step (r : request) (th : TodoHandler) :
  match serve r th with
  | Crashed _ => False
  | Blocked th' => th' = th
  | Returned resp th' =>
      (req_route r = POST_TodoItems ∧ resp = NoBody ∧ post_effect th th')
      ∨ ((req_route r ≠ POST_TodoItems ∨ resp ≠ NoBody) ∧ frame_effect th th')
  end.
Proof.
  destruct r as [rt c ρ], th as [m n [rd wr]].
  unfold post_effect, frame_effect.
  destruct rt; cbn [serve req_route req_context req_range].
  - unfold GetItems. unfold_action. cbn. destruct wr; [done |]. cbn.
    destruct (copy_loop _ _). cbn. right. eauto.
  - unfold GetItemByID. destruct (strconv.Atoi _); unfold_action; cbn.
    + destruct wr; [done |]. cbn. right. split; [| eauto].
      left. done.
    + right. split; [right; done | eauto].
  - unfold PostItem. destruct (BindPost c); unfold_action; cbn.
    + destruct wr; [done |]. destruct rd; [| done]. cbn. left. eauto.
    + right. split; [right; done | eauto].
  - unfold PutItem. destruct (BindPut c); [| right; split; [left |]; eauto].
    destruct (strconv.Atoi _) as [id|]; [| right; split; [left |]; eauto].
    unfold_action. cbn. destruct wr; [done |]. destruct rd; [| done]. cbn.
    destruct (m !! id) as [item|] eqn:Hm; cbn.
    + right. split; [by left |]. rewrite insert_id by done. eauto.
    + right. split; [by left | eauto].
  - unfold DeleteItem. destruct (strconv.Atoi _) as [id|];
      [| right; split; [left |]; eauto].
    unfold_action. cbn. destruct wr; [done |]. destruct rd; [| done]. cbn.
    destruct (m !! id) as [item|] eqn:Hm; cbn; right; (split; [by left |]);
      eauto.
Qed.

(** Where the mutex is left by a request served with the mutex free: free
    again, except by the [DeleteItem] that does not find its id. *)
Lemma serve_lock (r : request) (th : TodoHandler) :
  mu th = unlocked →
  mu (state_after (serve r th)) = unlocked
  ∨ (req_route r = DELETE_TodoItems_id
     ∧ ∃ id, strconv.Atoi (Param (req_context r) "id"%string) = Some id
             ∧ items th !! id = None
             ∧ mu (state_after (serve r th))
               = {| readers := 0; writer := true |}).
Proof.
  intros Hmu. destruct r as [rt c ρ].
  destruct rt; cbn [serve req_route req_context req_range].
  - left. rewrite GetItems_eq by (by rewrite Hmu). done.
  - left. destruct (strconv.Atoi (Param c "id"%string)) as [id|] eqn:Hid.
    + rewrite (GetItemByID_eq c th id); [done.. |]. by rewrite Hmu.
    + unfold GetItemByID. by rewrite Hid.
  - left. destruct (BindPost c) as [item|] eqn:Hb.
    + by rewrite (PostItem_eq c th item).
    + unfold PostItem. by rewrite Hb.
  - left. destruct (BindPut c) as [putItem|] eqn:Hb;
      [| unfold PutItem; by rewrite Hb].
    destruct (strconv.Atoi (Param c "id"%string)) as [id|] eqn:Hid.
    + by rewrite (PutItem_eq c th putItem id).
    + unfold PutItem. by rewrite Hb, Hid.
  - destruct (strconv.Atoi (Param c "id"%string)) as [id|] eqn:Hid.
    + rewrite (DeleteItem_eq c th id) by done.
      destruct (items th !! id) eqn:Hm; [by left |]. right. eauto.
    + left. unfold DeleteItem. by rewrite Hid.
Qed.

Lemma serve_not_Crashed (r : request) (th th' : TodoHandler) :
  serve r th ≠ Crashed th'.
Proof. intros E. pose proof (serve_step r th) as Hs. by rewrite E in Hs. Qed.

Lemma final_cons (r : request) (reqs : list request) (th : TodoHandler) :
  final (r :: reqs) th = final reqs (state_after (serve r th)).
Proof.
  cbn [final]. destruct (serve r th) eqn:E; [done.. |].
  by apply serve_not_Crashed in E.
Qed.

Lemma run_cons (r : request) (reqs : list request) (th : TodoHandler) :
  run (r :: reqs) th
  = (r, serve r th) :: run reqs (state_after (serve r th)).
Proof.
  cbn [run]. destruct (serve r th) eqn:E; [done.. |].
  by apply serve_not_Crashed in E.
Qed.

Lemma store_inv_post (th th' : TodoHandler) :
  post_effect th th' → store_inv th → store_inv th'.
Proof.
  intros (_ & name & Hitems) Hinv k item. rewrite Hitems.
  intros [[<- <-] | [_ Hk]]%lookup_insert_Some; [done | by apply Hinv].
Qed.

Lemma store_inv_frame (th th' : TodoHandler) :
  frame_effect th th' → store_inv th → store_inv th'.
Proof.
  intros (_ & [Hitems | [id Hitems]]) Hinv k item; rewrite Hitems.
  - apply Hinv.
  - intros [_ Hk]%lookup_delete_Some. by apply Hinv.
Qed.

Lemma serve_store_inv (r : request) (th : TodoHandler) :
  store_inv th → store_inv (state_after (serve r th)).
Proof.
  intros Hinv. pose proof (serve_step r th) as Hs.
  destruct (serve r th) as [resp th' | th' | th']; cbn; [| by subst | done].
  destruct Hs as [(_ & _ & Hp) | (_ & Hf)];
    eauto using store_inv_post, store_inv_frame.
Qed.

(** C7: in every state reached from a new handler (whatever its starting
    counter) by serving any sequence of requests to the five routes, every
    item of the map has as its [Id] the key it is stored under. *)
Theorem reachable_store_inv (n0 : Z) (reqs : list request) :
  store_inv (final reqs (NewTodoHandler n0)).
Proof.
  assert (store_inv (NewTodoHandler n0)) as Hinit.
  { intros k item. cbn. by rewrite lookup_empty. }
  revert Hinit. generalize (NewTodoHandler n0).
  induction reqs as [|r reqs IH]; intros th Hinv; [done |].
  rewrite final_cons. apply IH. by apply serve_store_inv.
Qed.

End serving.

(** ** The ids handed out by PostItem *)

Lemma incr_no_overflow (z : Z) :
  GoInt.MinInt <= z → z < GoInt.MaxInt → GoInt.incr z = z + 1.
Proof.
  unfold GoInt.incr, GoInt.wrap, GoInt.MinInt, GoInt.MaxInt, GoInt.intSize.
  change (2 ^ (64 - 1)) with 9223372036854775808.
  change (2 ^ 64) with 18446744073709551616.
  intros Hlo Hhi. rewrite Z.mod_small; lia.
Qed.

Lemma incr_MaxInt : GoInt.incr GoInt.MaxInt = GoInt.MinInt.
Proof. reflexivity. Qed.

Lemma StronglySorted_lt_NoDup (l : list Z) : StronglySorted Z.lt l → NoDup l.
Proof.
  induction 1 as [|x l _ IH Hx]; constructor; [| done].
  intros Hin. rewrite Forall_forall in Hx. specialize (Hx _ Hin). lia.
Qed.

Section created.
Context `{Sorter}.

Lemma created_ids_cons (r : request) (reqs : list request) (th : TodoHandler) :
  created_ids (r :: reqs) th
  = match assigned_id (r, serve r th) with
    | Some i => i :: created_ids reqs (state_after (serve r th))
    | None => created_ids reqs (state_after (serve r th))
    end.
Proof. unfold created_ids. rewrite run_cons. reflexivity. Qed.

Lemma run_app (l1 l2 : list request) (th : TodoHandler) :
  run (l1 ++ l2) th = run l1 th ++ run l2 (final l1 th).
Proof.
  revert th. induction l1 as [|r l1 IH]; intros th; [done |].
  cbn [app]. by rewrite !run_cons, final_cons, IH.
Qed.

Lemma created_ids_app (l1 l2 : list request) (th : TodoHandler) :
  created_ids (l1 ++ l2) th
  = created_ids l1 th ++ created_ids l2 (final l1 th).
Proof. unfold created_ids. by rewrite run_app, omap_app. Qed.

(** What a request is assigned, read off [serve_step]. *)
Lemma assigned_id_step (r : request) (th : TodoHandler) :
  (assigned_id (r, serve r th) = Some (GoInt.incr (lastID th))
   ∧ lastID (state_after (serve r th)) = GoInt.incr (lastID th))
  ∨ (assigned_id (r, serve r th) = None
     ∧ lastID (state_after (serve r th)) = lastID th).
Proof.
  pose proof (serve_step r th) as Hs.
  destruct (serve r th) as [resp th' | th' | th']; cbn [state_after].
  - destruct Hs as [(Hr & -> & Hl & _) | ([Hr | Hr] & Hl & _)].
    + left. cbn. by rewrite Hr, Hl.
    + right. split; [| done]. cbn. by destruct resp, (req_route r).
    + right. split; [| done]. cbn. by destruct resp.
  - right. by subst.
  - done.
Qed.

Lemma created_ids_above (reqs : list request) : ∀ th,
  GoInt.MinInt <= lastID th →
  lastID th + Z.of_nat (length (created_ids reqs th)) <= GoInt.MaxInt →
  Forall (λ i, lastID th < i) (created_ids reqs th)
  ∧ StronglySorted Z.lt (created_ids reqs th).
Proof.
  induction reqs as [|r reqs IH]; intros th Hlo Hhi.
  { split; constructor. }
  rewrite created_ids_cons in Hhi |- *.
  specialize (IH (state_after (serve r th))).
  destruct (assigned_id_step r th) as [[Ha Hl] | [Ha Hl]];
    rewrite Ha in *; rewrite Hl in IH.
  - cbn [length] in Hhi.
    assert (GoInt.incr (lastID th) = lastID th + 1) as Hincr
      by (apply incr_no_overflow; lia).
    rewrite Hincr in *.
    destruct IH as [Hall Hsorted]; [lia.. |]. split.
    + constructor; [lia |]. eapply Forall_impl; [exact Hall |].
      cbn. intros; lia.
    + by constructor.
  - by apply IH.
Qed.

(** C3 (as amended): starting from the handler [main] builds, and serving
    any sequence of requests in which no more than [MaxInt] (2^63 - 1) ids
    get assigned, the ids assigned by the successive [PostItem] calls that
    went through are strictly increasing, and none is assigned twice,
    whatever [DeleteItem] calls come in between. *)
Theorem created_ids_increasing (reqs : list request) :
  Z.of_nat (length (created_ids reqs (NewTodoHandler 0))) <= GoInt.MaxInt →
  StronglySorted Z.lt (created_ids reqs (NewTodoHandler 0))
  ∧ NoDup (created_ids reqs (NewTodoHandler 0)).
Proof.
  intros Hn.
  destruct (created_ids_above reqs (NewTodoHandler 0)) as [_ Hs];
    [done | done |].
  split; [done | by apply StronglySorted_lt_NoDup].
Qed.

Lemma serve_post_item (name : string) (th : TodoHandler) :
  mu th = unlocked →
  serve (post_item name) th = Returned NoBody (posted name th).
Proof.
  intros Hmu. unfold serve. cbn [req_route post_item req_context].
  by apply (PostItem_eq _ th {| Post_Name := name |}).
Qed.

(** Posting over and over with the mutex free: the counter after [n] posts
    that stay below [MaxInt]. *)
Lemma final_posts (name : string) (n : nat) : ∀ th,
  mu th = unlocked →
  GoInt.MinInt <= lastID th →
  lastID th + Z.of_nat n <= GoInt.MaxInt →
  lastID (final (repeat (post_item name) n) th) = lastID th + Z.of_nat n
  ∧ mu (final (repeat (post_item name) n) th) = unlocked.
Proof.
  induction n as [|n IH]; intros th Hmu Hlo Hhi.
  { cbn. split; [lia | done]. }
  cbn [repeat]. rewrite final_cons, serve_post_item by done.
  cbn [state_after].
  destruct (IH (posted name th)) as [-> ->]; cbn [posted lastID mu];
    rewrite ?incr_no_overflow by lia; [done | lia | lia |].
  split; [lia | done].
Qed.

(** The post that finds the counter at [MaxInt] is assigned [MinInt]. *)
Lemma created_ids_posts_overflow (name : string) (n : nat) :
  Z.of_nat n = GoInt.MaxInt - 1 →
  ∃ ids, created_ids (repeat (post_item name) (S (n + 1))) (NewTodoHandler 0)
         = 1 :: ids ++ [GoInt.MinInt].
Proof.
  intros Hn. cbn [repeat]. rewrite repeat_app. cbn [repeat].
  rewrite created_ids_cons, serve_post_item by done.
  cbn [assigned_id post_item req_route state_after].
  rewrite created_ids_app.
  destruct (final_posts name n (posted name (NewTodoHandler 0)))
    as [Hl Hmu];
    [done | done | cbn [posted lastID NewTodoHandler];
                   change (GoInt.incr 0) with 1; lia |].
  rewrite created_ids_cons, serve_post_item by done.
  cbn [assigned_id post_item req_route state_after].
  cbn [posted lastID NewTodoHandler] in *. rewrite Hl.
  change (GoInt.incr 0) with 1. replace (1 + Z.of_nat n) with GoInt.MaxInt by lia.
  rewrite incr_MaxInt. eauto.
Qed.

End created.

(** ** PostItem, PutItem and the not-found paths *)

(** C6: for every store state (with the mutex free, so that the write
    lock is granted) and every body that binds, [PostItem] returns without
    writing an error, steps the counter once (Go's [++]: plus one below
    [MaxInt]), and stores under the new counter value an item with that
    [Id], the posted name and [IsComplete = false]; nothing in the store
    state is consulted about names, and no other key changes. *)
Theorem PostItem_creates (c : Context) (th : TodoHandler) (item : PostTodoItem) :
  BindPost c = Some item →
  mu th = unlocked →
  ∃ th',
    PostItem c th = Returned NoBody th'
    ∧ lastID th' = GoInt.incr (lastID th)
    ∧ (GoInt.MinInt <= lastID th < GoInt.MaxInt → lastID th' = lastID th + 1)
    ∧ items th' !! lastID th'
      = Some {| Id := lastID th'; Name := Post_Name item; IsComplete := false |}
    ∧ (∀ k, k ≠ lastID th' → items th' !! k = items th !! k)
    ∧ mu th' = unlocked.
Proof.
  intros Hb Hmu. eexists. split; [by apply PostItem_eq |].
  cbn [lastID items mu]. split_and!.
  - done.
  - intros [? ?]. by apply incr_no_overflow.
  - apply lookup_insert_eq.
  - intros k Hk. by apply lookup_insert_ne.
  - done.
Qed.

(** C5: for every store state (mutex free) and every id (the path
    parameter parses to it; the body of the PUT binds), [GetItemByID],
    [PutItem] and [DeleteItem] answer 404 exactly when the map has no item
    under the id, hence for the same ids; and when one of them answers
    404 the map and the counter are what they were. *)
Theorem NotFound_same_ids (c : Context) (th : TodoHandler) (id : Z)
    (putItem : PutTodoItem) :
  strconv.Atoi (Param c "id"%string) = Some id →
  BindPut c = Some putItem →
  mu th = unlocked →
  (signals_NotFound (GetItemByID c th) = true ↔ items th !! id = None)
  ∧ (signals_NotFound (PutItem c th) = true ↔ items th !! id = None)
  ∧ (signals_NotFound (DeleteItem c th) = true ↔ items th !! id = None)
  ∧ (signals_NotFound (GetItemByID c th) = true
     → same_store th (state_after (GetItemByID c th)))
  ∧ (signals_NotFound (PutItem c th) = true
     → same_store th (state_after (PutItem c th)))
  ∧ (signals_NotFound (DeleteItem c th) = true
     → same_store th (state_after (DeleteItem c th))).
Proof.
  intros Hid Hb Hmu.
  rewrite (GetItemByID_eq c th id) by (done || by rewrite Hmu).
  rewrite (PutItem_eq c th putItem id), (DeleteItem_eq c th id) by done.
  destruct (items th !! id) as [item|]; cbn; split_and!; done.
Qed.

(** C10: in a store state (mutex free) whose map has an item under the id,
    serving the same PUT twice in a row leaves the state the first one
    left. *)
Theorem PutItem_idempotent (c : Context) (th : TodoHandler) (id : Z)
    (putItem : PutTodoItem) :
  strconv.Atoi (Param c "id"%string) = Some id →
  BindPut c = Some putItem →
  mu th = unlocked →
  is_Some (items th !! id) →
  ∃ th1 th2,
    PutItem c th = Returned NoBody th1
    ∧ PutItem c th1 = Returned NoBody th2
    ∧ th2 = th1.
Proof.
  intros Hid Hb Hmu [item Hitem]. exists th, th.
  rewrite (PutItem_eq c th putItem id), Hitem by done. done.
Qed.

(** C9: [PutItem] binds the body before it looks at the path: when the
    body does not bind, whatever the path parameters are (an id that does
    not parse included) and whatever the state, it answers 400 with the
    plain "Bad request" and leaves the state alone. *)
Theorem PutItem_body_checked_first (ps : list (string * string))
    (post : option PostTodoItem) (th : TodoHandler) :
  PutItem {| Params := ps; BindPost := post; BindPut := None |} th
  = Returned (String_ http.StatusBadRequest "Bad request"%string []) th.
Proof. reflexivity. Qed.

(** With a body that binds, the id that does not parse gets its own
    message. *)
Example PutItem_bad_id (th : TodoHandler) :
  PutItem (context_of "abc"%string None
             (Some {| Put_Name := "X"%string; Put_IsComplete := true |})) th
  = Returned (String_ http.StatusBadRequest
                "Bad request: Id in url is not a valid id"%string []) th.
Proof. reflexivity. Qed.

(** ** Runs of the service *)

(** [two_items] is the store after the two posts were served. *)
Example two_items_served :
  final (H := insertion_sorter)
    [post_item "Buy milk"%string; post_item "Walk dog"%string]
    (NewTodoHandler 0)
  = two_items.
Proof. reflexivity. Qed.

(** The scenario of the service's description, as the code runs it: the
    PUT is answered 200 and item 1 still reads "Buy milk"; after the
    delete, id 1 is not found, the listing has item 2 only, and the next
    post gets id 3. *)
Example scenario_responses :
  response_of ∘ snd <$>
    run (H := insertion_sorter)
      [post_item "Buy milk"%string; post_item "Walk dog"%string;
       put_item "1"%string "Buy oat milk"%string true; get_item "1"%string;
       delete_item "1"%string; get_item "1"%string;
       list_items descending_range;
       post_item "Read book"%string; get_item "3"%string;
       get_item "abc"%string]
      (NewTodoHandler 0)
  = [Some NoBody; Some NoBody;
     Some NoBody;
     Some (JSON_item 200 {| Id := 1; Name := "Buy milk"%string;
                            IsComplete := false |});
     Some NoBody; Some (NotFound 1);
     Some (JSON_items 200 [{| Id := 2; Name := "Walk dog"%string;
                              IsComplete := false |}]);
     Some NoBody;
     Some (JSON_item 200 {| Id := 3; Name := "Read book"%string;
                            IsComplete := false |});
     Some (String_ 400 "Bad request: Id in path is not a valid id"%string [])].
Proof. reflexivity. Qed.

(** C1: [DeleteItem] with an id the map does not have takes the write lock
    and returns 404 still holding it; every later request, to any of the
    five routes, then blocks. *)
Theorem DeleteItem_not_found_keeps_lock :
  ∃ th',
    DeleteItem (context_of "1"%string None None) (NewTodoHandler 0)
    = Returned (NotFound 1) th'
    ∧ mu th' = {| readers := 0; writer := true |}
    ∧ Forall (λ r, serve (H := insertion_sorter) r th' = Blocked th')
        [list_items ascending_range; get_item "1"%string;
         post_item "Buy milk"%string; put_item "1"%string "X"%string true;
         delete_item "1"%string].
Proof.
  eexists. split; [reflexivity |]. split; [reflexivity |].
  repeat constructor.
Qed.

(** C4: after "Buy milk" and "Walk dog" were posted, a PUT to id 1 with
    name "X" and isComplete true answers 200, and the item under 1 is
    still [{1, "Buy milk", false}]: the state is the one before the PUT. *)
Theorem PutItem_keeps_old_item :
  PutItem (context_of "1"%string None
             (Some {| Put_Name := "X"%string; Put_IsComplete := true |}))
    two_items
  = Returned NoBody two_items
  ∧ GetItemByID (context_of "1"%string None None) two_items
    = Returned (JSON_item http.StatusOK
                  {| Id := 1; Name := "Buy milk"%string; IsComplete := false |})
        two_items.
Proof. split; vm_compute; reflexivity. Qed.

(** C3 (as stated) fails once the counter wraps around: of 2^63 posts in
    a row the first is assigned 1 and the last, which finds the counter at
    [MaxInt], is assigned [MinInt]. *)
Lemma created_ids_wrap_around :
  ¬ StronglySorted Z.lt
      (created_ids (H := insertion_sorter)
         (repeat (post_item "x"%string) (Z.to_nat (2 ^ 63)))
         (NewTodoHandler 0)).
Proof.
  intros Hs.
  destruct (created_ids_posts_overflow (H := insertion_sorter) "x"%string
              (Z.to_nat (GoInt.MaxInt - 1))) as [ids E].
  { apply Z2Nat.id. unfold GoInt.MaxInt, GoInt.intSize.
    change (2 ^ (64 - 1)) with 9223372036854775808. lia. }
  assert (Z.to_nat (2 ^ 63) = S (Z.to_nat (GoInt.MaxInt - 1) + 1)) as En.
  { unfold GoInt.MaxInt, GoInt.intSize.
    change (2 ^ (64 - 1)) with 9223372036854775808.
    change (2 ^ 63) with 9223372036854775808. lia. }
  rewrite En, E in Hs.
  apply StronglySorted_inv in Hs as [_ Hall].
  apply Forall_app in Hall as [_ Hlast].
  apply Forall_inv in Hlast. unfold GoInt.MinInt, GoInt.intSize in Hlast.
  change (2 ^ (64 - 1)) with 9223372036854775808 in Hlast. lia.
Qed.

(** ** The theorems at work on the two-item store *)

(** The listing of the two-item store, ranged over in descending order. *)
Lemma GetItems_lists_store_sorted_witness :
  writer (mu two_items) = false
  ∧ ∃ out,
      GetItems (H := insertion_sorter) descending_range
        (context_of EmptyString None None) two_items
      = Returned (JSON_items http.StatusOK out) two_items
      ∧ out ≡ₚ (map_to_list (items two_items)).*2
      ∧ (∀ item, item ∈ out ↔ ∃ k, items two_items !! k = Some item)
      ∧ length out = size (items two_items)
      ∧ StronglySorted id_le out.
Proof.
  split; [reflexivity |].
  apply (GetItems_lists_store_sorted (H := insertion_sorter)). reflexivity.
Defined.

(** Two listings of the two-item store, ranged over in opposite orders. *)
Lemma GetItems_twice_same_witness :
  store_inv two_items
  ∧ writer (mu two_items) = false
  ∧ ∃ out th1 th2,
      GetItems (H := insertion_sorter) ascending_range
        (context_of EmptyString None None) two_items
      = Returned (JSON_items http.StatusOK out) th1
      ∧ GetItems (H := insertion_sorter) descending_range
          (context_of EmptyString None None) th1
        = Returned (JSON_items http.StatusOK out) th2.
Proof.
  assert (store_inv two_items) as Hinv by compute_done.
  split; [exact Hinv |]. split; [reflexivity |].
  apply (GetItems_twice_same (H := insertion_sorter)); [exact Hinv | reflexivity].
Defined.

(** Three posts with a delete in between are assigned 1, 2 and 3. *)
Lemma created_ids_increasing_witness :
  let reqs := [post_item "Buy milk"%string; post_item "Walk dog"%string;
               delete_item "1"%string; post_item "Read book"%string] in
  created_ids (H := insertion_sorter) reqs (NewTodoHandler 0) = [1; 2; 3]
  ∧ StronglySorted Z.lt (created_ids (H := insertion_sorter) reqs (NewTodoHandler 0))
  ∧ NoDup (created_ids (H := insertion_sorter) reqs (NewTodoHandler 0)).
Proof.
  intros reqs. split; [reflexivity |].
  apply (created_ids_increasing (H := insertion_sorter) reqs). compute_done.
Defined.

(** A second "Buy milk" posted to the two-item store. *)
Lemma PostItem_creates_witness :
  ∃ th',
    PostItem (context_of EmptyString
                (Some {| Post_Name := "Buy milk"%string |}) None) two_items
    = Returned NoBody th'
    ∧ lastID th' = GoInt.incr (lastID two_items)
    ∧ (GoInt.MinInt <= lastID two_items < GoInt.MaxInt
       → lastID th' = lastID two_items + 1)
    ∧ items th' !! lastID th'
      = Some {| Id := lastID th'; Name := "Buy milk"%string;
                IsComplete := false |}
    ∧ (∀ k, k ≠ lastID th' → items th' !! k = items two_items !! k)
    ∧ mu th' = unlocked.
Proof.
  apply (PostItem_creates
           (context_of EmptyString (Some {| Post_Name := "Buy milk"%string |})
              None) two_items {| Post_Name := "Buy milk"%string |});
    reflexivity.
Defined.

(** Id 7 on the two-item store. *)
Lemma NotFound_same_ids_witness :
  let c := context_of "7"%string None
             (Some {| Put_Name := "X"%string; Put_IsComplete := true |}) in
  (signals_NotFound (GetItemByID c two_items) = true
   ↔ items two_items !! 7 = None)
  ∧ (signals_NotFound (PutItem c two_items) = true
     ↔ items two_items !! 7 = None)
  ∧ (signals_NotFound (DeleteItem c two_items) = true
     ↔ items two_items !! 7 = None)
  ∧ (signals_NotFound (GetItemByID c two_items) = true
     → same_store two_items (state_after (GetItemByID c two_items)))
  ∧ (signals_NotFound (PutItem c two_items) = true
     → same_store two_items (state_after (PutItem c two_items)))
  ∧ (signals_NotFound (DeleteItem c two_items) = true
     → same_store two_items (state_after (DeleteItem c two_items))).
Proof.
  intros c.
  apply (NotFound_same_ids c two_items 7
           {| Put_Name := "X"%string; Put_IsComplete := true |});
    reflexivity.
Defined.

(** The same PUT to id 1 of the two-item store, twice. *)
Lemma PutItem_idempotent_witness :
  let c := context_of "1"%string None
             (Some {| Put_Name := "X"%string; Put_IsComplete := true |}) in
  is_Some (items two_items !! 1)
  ∧ ∃ th1 th2,
      PutItem c two_items = Returned NoBody th1
      ∧ PutItem c th1 = Returned NoBody th2
      ∧ th2 = th1.
Proof.
  intros c.
  assert (is_Some (items two_items !! 1)) as Hsome
    by (eexists; vm_compute; reflexivity).
  split; [exact Hsome |].
  apply (PutItem_idempotent c two_items 1
           {| Put_Name := "X"%string; Put_IsComplete := true |});
    [reflexivity | reflexivity | reflexivity | exact Hsome].
Defined.

(** * Further properties of the code *)

(** ** The sort.Interface of TodoItemCollection *)

(** [Swap] with both positions in range, read position by position. *)
Lemma Swap_lookup (t : TodoItemCollection) (i j k : nat) :
  (i < Len t)%nat → (j < Len t)%nat →
  Swap t i j !! k
  = if decide (k = j) then t !! i
    else if decide (k = i) then t !! j else t !! k.
Proof.
  unfold Len, Swap. intros Hi Hj.
  destruct (lookup_lt_is_Some_2 t i Hi) as [a Ha].
  destruct (lookup_lt_is_Some_2 t j Hj) as [b Hb].
  rewrite Ha, Hb.
  destruct (decide (k = j)) as [-> | Hkj].
  - rewrite list_lookup_insert_eq; [done | by rewrite length_insert].
  - rewrite list_lookup_insert_ne by done.
    destruct (decide (k = i)) as [-> | Hki].
    + by rewrite list_lookup_insert_eq.
    + by rewrite list_lookup_insert_ne.
Qed.

Lemma Swap_Len (t : TodoItemCollection) (i j : nat) : Len (Swap t i j) = Len t.
Proof.
  unfold Len, Swap. destruct (t !! i), (t !! j); [| done..].
  by rewrite !length_insert.
Qed.

(** X1: with both positions in range, [Swap] puts the element of position
    [i] at [j] and that of [j] at [i], leaves every other position as it
    was, and keeps the length. *)
Theorem Swap_exchanges (t : TodoItemCollection) (i j : nat) :
  (i < Len t)%nat → (j < Len t)%nat →
  Swap t i j !! i = t !! j
  ∧ Swap t i j !! j = t !! i
  ∧ (∀ k, k ≠ i → k ≠ j → Swap t i j !! k = t !! k)
  ∧ Len (Swap t i j) = Len t.
Proof.
  intros Hi Hj. split_and!.
  - rewrite Swap_lookup by done. repeat case_decide; by subst.
  - rewrite Swap_lookup by done. by rewrite decide_True.
  - intros k Hki Hkj. rewrite Swap_lookup by done.
    by rewrite !decide_False.
  - apply Swap_Len.
Qed.




Lemma Swap_exchanges_witness :
  Swap three_items 0 2 !! 0%nat = three_items !! 2%nat
  ∧ Swap three_items 0 2 !! 2%nat = three_items !! 0%nat
  ∧ (∀ k, k ≠ 0%nat → k ≠ 2%nat → Swap three_items 0 2 !! k = three_items !! k)
  ∧ Len (Swap three_items 0 2) = Len three_items.
Proof. apply (Swap_exchanges three_items 0 2); unfold Len; cbn; lia. Defined.

(** ** The handlers on their other paths *)

Section more_handler_facts.
Context `{Sorter}.

Implicit Types (th : TodoHandler) (c : Context) (ρ : MapRange) (id : Z).

Lemma sort_Sort_nil : sort_Sort [] = [].
Proof. apply Permutation_nil_r, sort_Sort_perm. Qed.

(** X5: a handler fresh from [NewTodoHandler], whatever counter it is
    given, lists an empty slice and has no item under any id. *)
Theorem NewTodoHandler_is_empty (n : Z) ρ c :
  GetItems ρ c (NewTodoHandler n)
  = Returned (JSON_items http.StatusOK []) (NewTodoHandler n)
  ∧ ∀ c' id, strconv.Atoi (Param c' "id"%string) = Some id →
      GetItemByID c' (NewTodoHandler n)
      = Returned (NotFound id) (NewTodoHandler n).
Proof.
  split.
  - rewrite GetItems_eq by done. cbn [items NewTodoHandler].
    assert (ρ ∅ = []) as ->.
    { apply Permutation_nil_r. by rewrite (range_of_perm ρ ∅), map_to_list_empty. }
    cbn. by rewrite sort_Sort_nil.
  - intros c' id Hid. rewrite (GetItemByID_eq c' _ id) by done.
    cbn. by rewrite lookup_empty.
Qed.

(** X6: the two GET handlers are read-only: in every state, whoever holds
    the mutex and whatever the request, the handler state they leave is
    the state they found (when they block, too). *)
Theorem reads_leave_state ρ c th :
  state_after (GetItems ρ c th) = th
  ∧ state_after (GetItemByID c th) = th.
Proof.
  destruct th as [m n [rd wr]]. split.
  - unfold GetItems. unfold_action. cbn. destruct wr; [done |]. cbn.
    by destruct (copy_loop _ _).
  - unfold GetItemByID. destruct (strconv.Atoi _); [| done].
    unfold_action. cbn. by destruct wr.
Qed.

(** X7: what was posted can be read back: after a [PostItem] that got the
    lock, [GetItemByID] with the new counter value as id answers 200 with
    the item [{id, posted name, false}]. *)
Theorem PostItem_then_GetItemByID c c' th (item : PostTodoItem) :
  BindPost c = Some item →
  mu th = unlocked →
  strconv.Atoi (Param c' "id"%string) = Some (GoInt.incr (lastID th)) →
  ∃ th',
    PostItem c th = Returned NoBody th'
    ∧ GetItemByID c' th'
      = Returned (JSON_item http.StatusOK
                    {| Id := GoInt.incr (lastID th); Name := Post_Name item;
                       IsComplete := false |}) th'.
Proof.
  intros Hb Hmu Hid. eexists. split; [by apply PostItem_eq |].
  rewrite (GetItemByID_eq c' _ (GoInt.incr (lastID th))) by done.
  cbn [items]. by rewrite lookup_insert_eq.
Qed.

(** X8: [DeleteItem] with an id the map has (mutex free) answers 200
    without a body, removes that key and no other, leaves the counter,
    releases the mutex, and the id is not found afterwards. *)
Theorem DeleteItem_removes c th id (item : TodoItem) :
  strconv.Atoi (Param c "id"%string) = Some id →
  mu th = unlocked →
  items th !! id = Some item →
  ∃ th',
    DeleteItem c th = Returned NoBody th'
    ∧ items th' !! id = None
    ∧ (∀ k, k ≠ id → items th' !! k = items th !! k)
    ∧ size (items th') = pred (size (items th))
    ∧ lastID th' = lastID th
    ∧ mu th' = unlocked
    ∧ GetItemByID c th' = Returned (NotFound id) th'.
Proof.
  intros Hid Hmu Hitem. eexists.
  split; [by rewrite (DeleteItem_eq c th id), Hitem |].
  cbn [items lastID mu]. split_and!.
  - apply lookup_delete_eq.
  - intros k Hk. by apply lookup_delete_ne.
  - by apply map_size_delete_Some.
  - done.
  - done.
  - rewrite (GetItemByID_eq c _ id) by done. cbn [items].
    by rewrite lookup_delete_eq.
Qed.

(** X9: deleting the item just posted gives the map back, when the new
    counter value was not a key before; the counter keeps its step. *)
Theorem PostItem_then_DeleteItem c c' th (item : PostTodoItem) :
  BindPost c = Some item →
  mu th = unlocked →
  strconv.Atoi (Param c' "id"%string) = Some (GoInt.incr (lastID th)) →
  items th !! GoInt.incr (lastID th) = None →
  ∃ th1 th2,
    PostItem c th = Returned NoBody th1
    ∧ DeleteItem c' th1 = Returned NoBody th2
    ∧ items th2 = items th
    ∧ lastID th2 = GoInt.incr (lastID th)
    ∧ mu th2 = unlocked.
Proof.
  intros Hb Hmu Hid Hfresh. eexists _, _.
  split; [by apply PostItem_eq |].
  rewrite (DeleteItem_eq c' _ (GoInt.incr (lastID th))) by done.
  cbn [items lastID mu]. rewrite lookup_insert_eq.
  split; [reflexivity |]. cbn [items lastID mu].
  split; [| done]. by rewrite delete_insert_id.
Qed.

(** X10: requests that do not parse are answered 400 before any lock is
    taken: in every state, the write-locked one included, a path id that
    is not an int gets the handler's "not a valid id" message from
    [GetItemByID], [DeleteItem] and (with a body that binds) [PutItem],
    and a body that does not bind gets "Bad request" from [PostItem]; the
    state is left alone. *)
Theorem unparsable_requests_answered c th :
  (strconv.Atoi (Param c "id"%string) = None →
     GetItemByID c th
     = Returned (String_ http.StatusBadRequest
                   "Bad request: Id in path is not a valid id"%string []) th
     ∧ DeleteItem c th
       = Returned (String_ http.StatusBadRequest
                     "Bad request: Id in url is not a valid id"%string []) th
     ∧ (is_Some (BindPut c) →
        PutItem c th
        = Returned (String_ http.StatusBadRequest
                      "Bad request: Id in url is not a valid id"%string []) th))
  ∧ (BindPost c = None →
     PostItem c th
     = Returned (String_ http.StatusBadRequest "Bad request"%string []) th).
Proof.
  split.
  - intros Hid. unfold GetItemByID, DeleteItem, PutItem. rewrite Hid.
    split_and!; [done | done |]. by intros [p ->].
  - intros Hb. unfold PostItem. by rewrite Hb.
Qed.

(** X11: [PutItem] leaves the handler state as it found it on every path:
    a body that does not bind, an id that is not an int, an id that is not
    in the map, an id that is (the map entry is written back as read), and
    the blocked call. *)
Theorem PutItem_leaves_state c th : state_after (PutItem c th) = th.
Proof.
  unfold PutItem. destruct (BindPut c) as [putItem|]; [| done].
  destruct (strconv.Atoi _) as [id|]; [| done].
  destruct th as [m n [rd wr]]. unfold_action. cbn.
  destruct wr; [done |]. destruct rd; [| done]. cbn.
  destruct (m !! id) as [item|] eqn:Hm; cbn; [| done].
  by rewrite insert_id.
Qed.

End more_handler_facts.

(** ** Requests in turn: the mutex, progress and the counter *)

Section more_serving_facts.
Context `{Sorter}.

Implicit Types (th : TodoHandler) (r : request) (reqs : list request).

(** With the mutex free a request is answered. *)
Lemma serve_free_returns r th :
  mu th = unlocked → ∃ resp th', serve r th = Returned resp th'.
Proof.
  intros Hmu. pose proof (serve_step r th) as Hs.
  destruct (serve r th) as [resp th' | th' | th'] eqn:E; [eauto | | done].
  exfalso. subst th'. destruct r as [rt c ρ], th as [m n μ].
  cbn in Hmu. subst μ. revert E.
  destruct rt; cbn [serve req_route req_context req_range].
  - by rewrite GetItems_eq.
  - unfold GetItemByID. destruct (strconv.Atoi _); [| done].
    unfold_action. by cbn.
  - unfold PostItem. destruct (BindPost c); [| done]. unfold_action. by cbn.
  - unfold PutItem. destruct (BindPut c); [| done].
    destruct (strconv.Atoi _) as [id|]; [| done]. unfold_action. cbn.
    by destruct (m !! id).
  - unfold DeleteItem. destruct (strconv.Atoi _) as [id|]; [| done].
    unfold_action. cbn. by destruct (m !! id).
Qed.

(** With the mutex write-locked a request blocks, or fails to parse. *)
Lemma serve_write_locked r th :
  writer (mu th) = true →
  serve r th = Blocked th
  ∨ ∃ msg, serve r th = Returned (String_ http.StatusBadRequest msg []) th.
Proof.
  intros Hw. destruct r as [rt c ρ], th as [m n [rd wr]].
  cbn in Hw. subst wr.
  destruct rt; cbn [serve req_route req_context req_range].
  - left. unfold GetItems. unfold_action. by cbn.
  - unfold GetItemByID. destruct (strconv.Atoi _); [by left | right; eauto].
  - unfold PostItem. destruct (BindPost c); [by left | right; eauto].
  - unfold PutItem. destruct (BindPut c); [| right; eauto].
    destruct (strconv.Atoi _); [by left | right; eauto].
  - unfold DeleteItem. destruct (strconv.Atoi _); [by left | right; eauto].
Qed.

(** X12: once the write lock is held and nobody is there to release it
    (the state a [DeleteItem] that missed leaves), the service is stuck
    for good: whatever requests follow, each one blocks or is turned down
    with a 400 for not parsing, and the handler state never changes. *)
Theorem write_locked_is_stuck reqs th :
  writer (mu th) = true →
  final reqs th = th
  ∧ Forall (λ e, e.2 = Blocked th
                 ∨ ∃ msg, e.2 = Returned (String_ http.StatusBadRequest msg []) th)
      (run reqs th).
Proof.
  intros Hw. induction reqs as [|r reqs [IHf IHr]]; [by split |].
  rewrite final_cons, run_cons.
  destruct (serve_write_locked r th Hw) as [E | [msg E]]; rewrite E;
    cbn [state_after]; (split; [done |]); constructor; eauto.
Qed.

(** X13: with the mutex free every request is answered, with status 200,
    400 or 404, and an answer other than 200 comes with the map and the
    counter unchanged. *)
Theorem free_mutex_request_answered r th :
  mu th = unlocked →
  ∃ resp th',
    serve r th = Returned resp th'
    ∧ (status_of resp = http.StatusOK
       ∨ (status_of resp = http.StatusBadRequest
          ∨ status_of resp = http.StatusNotFound) ∧ same_store th th').
Proof.
  intros Hmu. destruct r as [rt c ρ]. unfold same_store.
  destruct rt; cbn [serve req_route req_context req_range].
  - rewrite GetItems_eq by (by rewrite Hmu). eauto.
  - destruct (strconv.Atoi (Param c "id"%string)) as [id|] eqn:Hid.
    + rewrite (GetItemByID_eq c th id) by (done || by rewrite Hmu).
      destruct (items th !! id); eauto 10.
    + unfold GetItemByID. rewrite Hid. eauto 10.
  - destruct (BindPost c) as [item|] eqn:Hb.
    + rewrite (PostItem_eq c th item) by done. eauto.
    + unfold PostItem. rewrite Hb. eauto 10.
  - destruct (BindPut c) as [putItem|] eqn:Hb;
      [| unfold PutItem; rewrite Hb; eauto 10].
    destruct (strconv.Atoi (Param c "id"%string)) as [id|] eqn:Hid.
    + rewrite (PutItem_eq c th putItem id) by done.
      destruct (items th !! id); eauto 10.
    + unfold PutItem. rewrite Hb, Hid. eauto 10.
  - destruct (strconv.Atoi (Param c "id"%string)) as [id|] eqn:Hid.
    + rewrite (DeleteItem_eq c th id) by done.
      destruct (items th !! id); eauto 10.
    + unfold DeleteItem. rewrite Hid. eauto 10.
Qed.

(** X14: no handler ever unlocks a mutex it does not hold: in every state
    and for every sequence of requests, no request ends in the runtime's
    fatal error, so every request of the sequence gets served. *)
Theorem run_never_crashes reqs th :
  length (run reqs th) = length reqs
  ∧ Forall (λ e, ∀ th', e.2 ≠ Crashed th') (run reqs th).
Proof.
  revert th. induction reqs as [|r reqs IH]; intros th; [by split |].
  rewrite run_cons. destruct (IH (state_after (serve r th))) as [IHl IHf].
  split; [cbn; by rewrite IHl |].
  constructor; [| done]. intros th'. apply serve_not_Crashed.
Qed.

(** X15: served with the mutex free, a request leaves the mutex free
    exactly when it is not a [DeleteItem] whose id parses and is missing
    from the map. *)
Theorem mutex_free_after_iff r th :
  mu th = unlocked →
  (mu (state_after (serve r th)) = unlocked
   ↔ ¬ (req_route r = DELETE_TodoItems_id
        ∧ ∃ id, strconv.Atoi (Param (req_context r) "id"%string) = Some id
                ∧ items th !! id = None)).
Proof.
  intros Hmu. split.
  - intros Hfree (Hr & id & Hid & Hm). destruct r as [rt c ρ].
    cbn in Hr, Hid. subst rt. revert Hfree.
    cbn [serve req_route req_context].
    by rewrite (DeleteItem_eq c th id), Hm.
  - intros Hnot. destruct (serve_lock r th Hmu) as [? | (Hr & id & ? & ? & _)];
      [done |]. destruct Hnot. eauto.
Qed.

(** X16: a service that is sent no DELETE never blocks: from a state with
    the mutex free, every request of the sequence is answered and the
    mutex is free at the end. *)
Theorem run_without_delete_never_blocks reqs th :
  mu th = unlocked →
  Forall (λ r, req_route r ≠ DELETE_TodoItems_id) reqs →
  mu (final reqs th) = unlocked
  ∧ Forall (λ e, is_Some (response_of e.2)) (run reqs th).
Proof.
  intros Hmu Hreqs. revert th Hmu.
  induction Hreqs as [|r reqs Hr _ IH]; intros th Hmu; [by split |].
  rewrite final_cons, run_cons.
  assert (mu (state_after (serve r th)) = unlocked) as Hmu'.
  { by destruct (serve_lock r th Hmu) as [? | (? & _)]. }
  destruct (IH _ Hmu') as [IHm IHf]. split; [done |].
  constructor; [| done].
  destruct (serve_free_returns r th Hmu) as (resp & th' & ->). by eexists.
Qed.

End more_serving_facts.

(** ** The counter and the keys of the map *)

Section more_counter_facts.
Context `{Sorter}.

Implicit Types (th : TodoHandler) (r : request) (reqs : list request).

Lemma fmap_seq_shift (a : Z) (n : nat) : ∀ s,
  (λ i, a + 1 + Z.of_nat i) <$> seq s n
  = (λ i, a + Z.of_nat i) <$> seq (S s) n.
Proof.
  induction n as [|n IH]; intros s; [done |].
  cbn [seq fmap list_fmap]. f_equal; [lia | apply IH].
Qed.

Lemma created_ids_from reqs : ∀ th,
  GoInt.MinInt <= lastID th →
  lastID th + Z.of_nat (length (created_ids reqs th)) <= GoInt.MaxInt →
  created_ids reqs th
  = (λ i, lastID th + Z.of_nat i) <$> seq 1 (length (created_ids reqs th))
  ∧ lastID (final reqs th)
    = lastID th + Z.of_nat (length (created_ids reqs th)).
Proof.
  induction reqs as [|r reqs IH]; intros th Hlo Hhi.
  { cbn. split; [done | lia]. }
  rewrite final_cons. rewrite created_ids_cons in Hhi |- *.
  specialize (IH (state_after (serve r th))).
  destruct (assigned_id_step r th) as [[Ha Hl] | [Ha Hl]];
    rewrite Ha in *; rewrite Hl in IH.
  - cbn [length] in Hhi |- *.
    assert (GoInt.incr (lastID th) = lastID th + 1) as Hincr
      by (apply incr_no_overflow; lia).
    rewrite Hincr in *.
    destruct IH as [IHc IHf]; [lia.. |]. split; [| lia].
    cbn [seq fmap list_fmap]. f_equal; [lia.. |].
    rewrite IHc at 1. apply fmap_seq_shift.
  - by apply IH.
Qed.

(** X17: from the handler [main] builds, as long as no more than [MaxInt]
    ids get assigned, the posts that go through are assigned 1, 2, 3, ...
    in order, without a gap, whatever else is served in between, and the
    counter ends at the number of ids assigned. *)
Theorem created_ids_consecutive reqs :
  Z.of_nat (length (created_ids reqs (NewTodoHandler 0))) <= GoInt.MaxInt →
  created_ids reqs (NewTodoHandler 0)
  = Z.of_nat <$> seq 1 (length (created_ids reqs (NewTodoHandler 0)))
  ∧ lastID (final reqs (NewTodoHandler 0))
    = Z.of_nat (length (created_ids reqs (NewTodoHandler 0))).
Proof.
  intros Hn.
  destruct (created_ids_from reqs (NewTodoHandler 0)) as [Hc Hf];
    [done | done |].
  split; [| exact Hf]. rewrite Hc at 1. by apply list_fmap_ext.
Qed.

(** The keys of the map stay within the ids handed out so far. *)
Lemma keys_bounded_run (lo : Z) reqs : ∀ th,
  GoInt.MinInt <= lastID th →
  lo <= lastID th →
  lastID th + Z.of_nat (length (created_ids reqs th)) <= GoInt.MaxInt →
  (∀ k, is_Some (items th !! k) → lo < k <= lastID th) →
  ∀ k, is_Some (items (final reqs th) !! k) →
       lo < k <= lastID (final reqs th).
Proof.
  induction reqs as [|r reqs IH]; intros th Hlo Hlow Hhi Hkeys; [done |].
  rewrite final_cons. rewrite created_ids_cons in Hhi.
  pose proof (serve_step r th) as Hs.
  destruct (serve r th) as [resp th' | th' | th'] eqn:E;
    cbn [state_after] in *; [| subst th'; by apply IH | done].
  destruct Hs as [(Hr & -> & Hl & name & Hitems) | (Hr & Hl & Hitems)].
  - cbn [assigned_id] in Hhi. rewrite Hr in Hhi. cbn [length] in Hhi.
    assert (lastID th' = lastID th + 1) as Hl'
      by (rewrite Hl; apply incr_no_overflow; lia).
    apply IH; [lia | lia | lia |].
    intros k. rewrite Hitems, lookup_insert_is_Some.
    intros [<- | [_ Hk]]; [lia | apply Hkeys in Hk; lia].
  - assert (length (created_ids reqs th')
            = length (match assigned_id (r, Returned resp th') with
                      | Some i => i :: created_ids reqs th'
                      | None => created_ids reqs th'
                      end)) as Hlen.
    { destruct Hr as [Hr | Hr]; cbn; [by destruct resp, (req_route r) |].
      by destruct resp. }
    apply IH; [lia | lia | rewrite Hl, Hlen; lia |].
    intros k Hk. rewrite Hl. apply Hkeys.
    destruct Hitems as [E' | [id E']]; rewrite E' in Hk; [done |].
    apply lookup_delete_is_Some in Hk. tauto.
Qed.

(** X18: from the handler [main] builds, as long as no more than [MaxInt]
    ids get assigned, every key of the map lies between 1 and the counter;
    so, while the counter is below [MaxInt], the key the next [PostItem]
    writes to is not in the map: a post never overwrites an item. *)
Theorem keys_within_counter reqs :
  Z.of_nat (length (created_ids reqs (NewTodoHandler 0))) <= GoInt.MaxInt →
  (∀ k, is_Some (items (final reqs (NewTodoHandler 0)) !! k) →
        1 <= k <= lastID (final reqs (NewTodoHandler 0)))
  ∧ (lastID (final reqs (NewTodoHandler 0)) < GoInt.MaxInt →
     items (final reqs (NewTodoHandler 0))
       !! GoInt.incr (lastID (final reqs (NewTodoHandler 0))) = None).
Proof.
  intros Hn.
  assert (∀ k, is_Some (items (final reqs (NewTodoHandler 0)) !! k) →
               0 < k <= lastID (final reqs (NewTodoHandler 0))) as Hkeys.
  { apply keys_bounded_run; [done | done | done |].
    intros k. cbn. rewrite lookup_empty. by intros [? ?]. }
  split; [intros k Hk; apply Hkeys in Hk; lia |].
  intros Hlt. apply eq_None_not_Some. intros Hk. apply Hkeys in Hk.
  destruct (created_ids_from reqs (NewTodoHandler 0)) as [_ Hf];
    [done | done |]. cbn [lastID NewTodoHandler] in Hf.
  rewrite incr_no_overflow in Hk; [lia | | done].
  rewrite Hf. unfold GoInt.MinInt, GoInt.intSize.
  change (2 ^ (64 - 1)) with 9223372036854775808. lia.
Qed.

End more_counter_facts.

(** ** Listings after a change, and against lookups *)

Section more_listing_facts.
Context `{Sorter}.

Implicit Types (th : TodoHandler) (c : Context) (ρ : MapRange) (id : Z).

(** X19: an item that was posted is in the next listing: after a
    [PostItem] that got the lock, [GetItems] answers with a slice that
    holds [{new counter value, posted name, false}]. *)
Theorem GetItems_after_PostItem ρ c c' th (item : PostTodoItem) :
  BindPost c = Some item →
  mu th = unlocked →
  ∃ th' out,
    PostItem c th = Returned NoBody th'
    ∧ GetItems ρ c' th' = Returned (JSON_items http.StatusOK out) th'
    ∧ {| Id := GoInt.incr (lastID th); Name := Post_Name item;
         IsComplete := false |} ∈ out.
Proof.
  intros Hb Hmu. eexists _, _.
  split; [by apply PostItem_eq |].
  split; [by apply GetItems_eq |].
  rewrite GetItems_perm, values_elem_of. cbn [items].
  exists (GoInt.incr (lastID th)). apply lookup_insert_eq.
Qed.

(** X20: an item that was deleted is out of the next listing: in a state
    that satisfies the store invariant, after a [DeleteItem] that found
    its id, [GetItems] answers with one item fewer and none with that
    [Id]. *)
Theorem GetItems_after_DeleteItem ρ c c' th id (item : TodoItem) :
  store_inv th →
  strconv.Atoi (Param c "id"%string) = Some id →
  mu th = unlocked →
  items th !! id = Some item →
  ∃ th' out,
    DeleteItem c th = Returned NoBody th'
    ∧ GetItems ρ c' th' = Returned (JSON_items http.StatusOK out) th'
    ∧ (∀ x, x ∈ out → Id x ≠ id)
    ∧ length out = pred (size (items th)).
Proof.
  intros Hinv Hid Hmu Hitem. eexists _, _.
  split; [by rewrite (DeleteItem_eq c th id), Hitem |].
  split; [by apply GetItems_eq |]. cbn [items]. split.
  - intros x. rewrite GetItems_perm, values_elem_of.
    intros [k [Hk Hx]%lookup_delete_Some]. by rewrite (Hinv _ _ Hx).
  - rewrite GetItems_perm, length_fmap, length_map_to_list.
    by apply map_size_delete_Some.
Qed.

Lemma values_ids_NoDup th :
  store_inv th → NoDup (Id <$> (map_to_list (items th)).*2).
Proof.
  intros Hinv.
  assert (Id <$> (map_to_list (items th)).*2 = (map_to_list (items th)).*1)
    as ->; [| apply NoDup_fst_map_to_list].
  rewrite <- list_fmap_compose. apply Forall_fmap_ext, Forall_forall.
  intros [k x] Hin%elem_of_map_to_list. cbn. by apply Hinv.
Qed.

Lemma strictly_ascending (l : list TodoItem) :
  StronglySorted id_le l → NoDup (Id <$> l) →
  StronglySorted (λ a b, Id a < Id b) l.
Proof.
  induction 1 as [|x l _ IH Hx]; intros Hnd; [constructor |].
  cbn in Hnd. apply NoDup_cons in Hnd as [Hnotin Hnd].
  constructor; [by apply IH |].
  rewrite Forall_forall in Hx |- *. intros y Hy.
  specialize (Hx y Hy). unfold id_le in Hx.
  assert (Id x ≠ Id y); [| lia].
  intros Heq. apply Hnotin. rewrite Heq. by apply list_elem_of_fmap_2.
Qed.

(** X21: in a state that satisfies the store invariant (every reachable
    one does) the listing is strictly ascending in [Id]: no id shows up
    twice. *)
Theorem GetItems_strictly_ascending ρ c th :
  store_inv th →
  writer (mu th) = false →
  ∃ out,
    GetItems ρ c th = Returned (JSON_items http.StatusOK out) th
    ∧ StronglySorted (λ a b, Id a < Id b) out
    ∧ NoDup (Id <$> out).
Proof.
  intros Hinv Hw. eexists. split; [by apply GetItems_eq |].
  assert (NoDup (Id <$> sort_Sort ((ρ (items th)).*2))) as Hnd.
  { rewrite GetItems_perm. by apply values_ids_NoDup. }
  split; [| done]. apply strictly_ascending; [| done].
  apply Sorted_StronglySorted; [apply id_le_trans | apply sort_Sort_Sorted].
Qed.

(** X22: the listing and the lookup agree: in a state that satisfies the
    store invariant, [GetItemByID] answers 200 with an item exactly when
    that item is in the listing and carries the id asked for (and so
    answers 404 exactly when no listed item carries it). *)
Theorem listing_agrees_with_lookup ρ c c' th id :
  store_inv th →
  writer (mu th) = false →
  strconv.Atoi (Param c' "id"%string) = Some id →
  ∃ out,
    GetItems ρ c th = Returned (JSON_items http.StatusOK out) th
    ∧ (∀ x, GetItemByID c' th = Returned (JSON_item http.StatusOK x) th
            ↔ x ∈ out ∧ Id x = id)
    ∧ (GetItemByID c' th = Returned (NotFound id) th
       ↔ ∀ x, x ∈ out → Id x ≠ id).
Proof.
  intros Hinv Hw Hid. eexists. split; [by apply GetItems_eq |].
  rewrite (GetItemByID_eq c' th id) by done.
  split.
  - intros x. rewrite GetItems_perm, values_elem_of. split.
    + destruct (items th !! id) as [y|] eqn:Hy; [| done].
      intros [= ->]. split; [eauto | by apply Hinv].
    + intros [[k Hk] Hx]. rewrite <- Hx, (Hinv _ _ Hk), Hk. done.
  - split.
    + destruct (items th !! id) as [y|] eqn:Hy; [done |]. intros _ x.
      rewrite GetItems_perm, values_elem_of. intros [k Hk] Hx.
      rewrite <- Hx, (Hinv _ _ Hk) in Hy. congruence.
    + intros Hnone. destruct (items th !! id) as [y|] eqn:Hy; [| done].
      destruct (Hnone y); [| by apply Hinv].
      rewrite GetItems_perm, values_elem_of. eauto.
Qed.

End more_listing_facts.

(** ** The further properties at work on the two-item store *)

(** Reading back "Read book", posted third. *)
Lemma PostItem_then_GetItemByID_witness :
  ∃ th',
    PostItem post_read_book two_items = Returned NoBody th'
    ∧ GetItemByID (id_param "3"%string) th'
      = Returned (JSON_item http.StatusOK
                    {| Id := GoInt.incr (lastID two_items);
                       Name := "Read book"%string; IsComplete := false |}) th'.
Proof.
  apply (PostItem_then_GetItemByID post_read_book (id_param "3"%string)
           two_items {| Post_Name := "Read book"%string |}); reflexivity.
Defined.

(** Deleting item 1 of the two. *)
Lemma DeleteItem_removes_witness :
  ∃ th',
    DeleteItem (id_param "1"%string) two_items = Returned NoBody th'
    ∧ items th' !! 1 = None
    ∧ (∀ k, k ≠ 1 → items th' !! k = items two_items !! k)
    ∧ size (items th') = pred (size (items two_items))
    ∧ lastID th' = lastID two_items
    ∧ mu th' = unlocked
    ∧ GetItemByID (id_param "1"%string) th' = Returned (NotFound 1) th'.
Proof.
  apply (DeleteItem_removes (id_param "1"%string) two_items 1
           {| Id := 1; Name := "Buy milk"%string; IsComplete := false |});
    reflexivity.
Defined.

(** Posting "Read book" and deleting it again. *)
Lemma PostItem_then_DeleteItem_witness :
  ∃ th1 th2,
    PostItem post_read_book two_items = Returned NoBody th1
    ∧ DeleteItem (id_param "3"%string) th1 = Returned NoBody th2
    ∧ items th2 = items two_items
    ∧ lastID th2 = GoInt.incr (lastID two_items)
    ∧ mu th2 = unlocked.
Proof.
  apply (PostItem_then_DeleteItem post_read_book (id_param "3"%string)
           two_items {| Post_Name := "Read book"%string |}); reflexivity.
Defined.

(** Three requests sent to the stuck service. *)
Lemma write_locked_is_stuck_witness :
  let reqs := [post_item "Read book"%string; get_item "1"%string;
               get_item "abc"%string] in
  writer (mu stuck_items) = true
  ∧ final (H := insertion_sorter) reqs stuck_items = stuck_items
  ∧ Forall (λ e, e.2 = Blocked stuck_items
                 ∨ ∃ msg, e.2 = Returned (String_ http.StatusBadRequest msg [])
                                  stuck_items)
      (run (H := insertion_sorter) reqs stuck_items).
Proof.
  intros reqs. split; [reflexivity |].
  apply (write_locked_is_stuck (H := insertion_sorter) reqs stuck_items).
  reflexivity.
Defined.

(** A delete of id 7, which the two-item store does not have. *)
Lemma free_mutex_request_answered_witness :
  ∃ resp th',
    serve (H := insertion_sorter) (delete_item "7"%string) two_items
    = Returned resp th'
    ∧ (status_of resp = http.StatusOK
       ∨ (status_of resp = http.StatusBadRequest
          ∨ status_of resp = http.StatusNotFound) ∧ same_store two_items th').
Proof.
  apply (free_mutex_request_answered (H := insertion_sorter)
           (delete_item "7"%string) two_items).
  reflexivity.
Defined.

Lemma mutex_free_after_iff_witness :
  mu (state_after (serve (H := insertion_sorter) (delete_item "7"%string)
                     two_items)) = unlocked
  ↔ ¬ (req_route (delete_item "7"%string) = DELETE_TodoItems_id
       ∧ ∃ id, strconv.Atoi (Param (req_context (delete_item "7"%string))
                               "id"%string) = Some id
               ∧ items two_items !! id = None).
Proof.
  apply (mutex_free_after_iff (H := insertion_sorter)
           (delete_item "7"%string) two_items).
  reflexivity.
Defined.

(** A post, a put, a lookup and a listing: no DELETE among them. *)
Lemma run_without_delete_never_blocks_witness :
  let reqs := [post_item "Read book"%string;
               put_item "1"%string "X"%string true;
               get_item "9"%string; list_items descending_range] in
  mu (final (H := insertion_sorter) reqs two_items) = unlocked
  ∧ Forall (λ e, is_Some (response_of e.2))
      (run (H := insertion_sorter) reqs two_items).
Proof.
  intros reqs.
  apply (run_without_delete_never_blocks (H := insertion_sorter) reqs two_items);
    [reflexivity | repeat constructor; discriminate].
Defined.

Lemma created_ids_consecutive_witness :
  created_ids (H := insertion_sorter) posts_and_a_delete (NewTodoHandler 0)
  = Z.of_nat <$>
      seq 1 (length (created_ids (H := insertion_sorter) posts_and_a_delete
                       (NewTodoHandler 0)))
  ∧ lastID (final (H := insertion_sorter) posts_and_a_delete (NewTodoHandler 0))
    = Z.of_nat (length (created_ids (H := insertion_sorter) posts_and_a_delete
                          (NewTodoHandler 0))).
Proof.
  apply (created_ids_consecutive (H := insertion_sorter) posts_and_a_delete).
  compute_done.
Defined.

Lemma keys_within_counter_witness :
  (∀ k, is_Some (items (final (H := insertion_sorter) posts_and_a_delete
                          (NewTodoHandler 0)) !! k) →
        1 <= k <= lastID (final (H := insertion_sorter) posts_and_a_delete
                            (NewTodoHandler 0)))
  ∧ (lastID (final (H := insertion_sorter) posts_and_a_delete
               (NewTodoHandler 0)) < GoInt.MaxInt →
     items (final (H := insertion_sorter) posts_and_a_delete (NewTodoHandler 0))
       !! GoInt.incr (lastID (final (H := insertion_sorter) posts_and_a_delete
                                (NewTodoHandler 0))) = None).
Proof.
  apply (keys_within_counter (H := insertion_sorter) posts_and_a_delete).
  compute_done.
Defined.

Lemma GetItems_after_PostItem_witness :
  ∃ th' out,
    PostItem post_read_book two_items = Returned NoBody th'
    ∧ GetItems (H := insertion_sorter) descending_range no_params th'
      = Returned (JSON_items http.StatusOK out) th'
    ∧ {| Id := GoInt.incr (lastID two_items); Name := "Read book"%string;
         IsComplete := false |} ∈ out.
Proof.
  apply (GetItems_after_PostItem (H := insertion_sorter) descending_range
           post_read_book no_params two_items
           {| Post_Name := "Read book"%string |}); reflexivity.
Defined.

Lemma GetItems_after_DeleteItem_witness :
  ∃ th' out,
    DeleteItem (id_param "1"%string) two_items = Returned NoBody th'
    ∧ GetItems (H := insertion_sorter) descending_range no_params th'
      = Returned (JSON_items http.StatusOK out) th'
    ∧ (∀ x, x ∈ out → Id x ≠ 1)
    ∧ length out = pred (size (items two_items)).
Proof.
  apply (GetItems_after_DeleteItem (H := insertion_sorter) descending_range
           (id_param "1"%string) no_params two_items 1
           {| Id := 1; Name := "Buy milk"%string; IsComplete := false |});
    [compute_done | reflexivity..].
Defined.

Lemma GetItems_strictly_ascending_witness :
  ∃ out,
    GetItems (H := insertion_sorter) descending_range no_params two_items
    = Returned (JSON_items http.StatusOK out) two_items
    ∧ StronglySorted (λ a b, Id a < Id b) out
    ∧ NoDup (Id <$> out).
Proof.
  apply (GetItems_strictly_ascending (H := insertion_sorter) descending_range
           no_params two_items); [compute_done | reflexivity].
Defined.

Lemma listing_agrees_with_lookup_witness :
  ∃ out,
    GetItems (H := insertion_sorter) descending_range no_params two_items
    = Returned (JSON_items http.StatusOK out) two_items
    ∧ (∀ x, GetItemByID (id_param "2"%string) two_items
            = Returned (JSON_item http.StatusOK x) two_items
            ↔ x ∈ out ∧ Id x = 2)
    ∧ (GetItemByID (id_param "2"%string) two_items
       = Returned (NotFound 2) two_items
       ↔ ∀ x, x ∈ out → Id x ≠ 2).
Proof.
  apply (listing_agrees_with_lookup (H := insertion_sorter) descending_range
           no_params (id_param "2"%string) two_items 2);
    [compute_done | reflexivity..].
Defined.

(** ** The copy loop, and what a stored item can look like *)

(** X23: the copy loop of [GetItems] stays within the slice it was given:
    [make] sized it by the map, every entry the range yields is written to
    a position of its own, in range order, no zero-valued slot is left
    over, and the index ends at the length. *)
Theorem copy_loop_fills (ρ : MapRange) (m : gmap Z TodoItem) :
  (copy_loop (ρ m) (make (size m))).1 = (ρ m).*2
  ∧ (copy_loop (ρ m) (make (size m))).2 = Len (make (size m))
  ∧ Len (copy_loop (ρ m) (make (size m))).1 = size m
  ∧ (copy_loop (ρ m) (make (size m))).1 ≡ₚ (map_to_list m).*2.
Proof.
  assert (length (ρ m) = size m) as Hlen.
  { rewrite (range_of_perm ρ m). apply length_map_to_list. }
  rewrite copy_loop_values. cbn [fst snd]. unfold Len, make. split_and!.
  - done.
  - by rewrite length_replicate.
  - by rewrite length_fmap.
  - by rewrite (range_of_perm ρ m).
Qed.

Section more_store_facts.
Context `{Sorter}.

Lemma serve_never_complete (r : request) (th : TodoHandler) :
  never_complete th → never_complete (state_after (serve r th)).
Proof.
  intros Hnc. pose proof (serve_step r th) as Hs.
  destruct (serve r th) as [resp th' | th' | th']; cbn; [| by subst | done].
  destruct Hs as [(_ & _ & _ & name & Hitems)
                 | (_ & _ & [Hitems | [id Hitems]])];
    intros k item; rewrite Hitems.
  - intros [[_ <-] | [_ Hk]]%lookup_insert_Some; [done | by apply (Hnc k)].
  - apply Hnc.
  - intros [_ Hk]%lookup_delete_Some. by apply (Hnc k).
Qed.

(** X24: in every state reached from a new handler by serving requests,
    whatever PUTs were among them, every item of the map has
    [IsComplete = false]: items are stored by [PostItem] with the flag
    down, and no handler stores an item with it up. *)
Theorem items_never_complete (n0 : Z) (reqs : list request) (k : Z)
    (item : TodoItem) :
  items (final reqs (NewTodoHandler n0)) !! k = Some item →
  IsComplete item = false.
Proof.
  assert (never_complete (NewTodoHandler n0)) as Hinit.
  { intros k' item'. cbn. by rewrite lookup_empty. }
  revert Hinit. generalize (NewTodoHandler n0).
  induction reqs as [|r reqs IH]; intros th Hnc; [apply Hnc |].
  rewrite final_cons. apply IH. by apply serve_never_complete.
Qed.

End more_store_facts.

(** After two posts and a PUT that asks for item 1 to be complete. *)
Lemma items_never_complete_witness :
  let reqs := [post_item "Buy milk"%string; post_item "Walk dog"%string;
               put_item "1"%string "X"%string true] in
  let item := {| Id := 1; Name := "Buy milk"%string; IsComplete := false |} in
  items (final (H := insertion_sorter) reqs (NewTodoHandler 0)) !! 1 = Some item
  ∧ IsComplete item = false.
Proof.
  intros reqs item. split; [reflexivity |].
  apply (items_never_complete (H := insertion_sorter) 0 reqs 1 item).
  reflexivity.
Defined.
